(** * Sparse matrix engine: a shallow embedding of [SparseMatrix.js]

    The development follows the JavaScript class method by method.

    Modelling conventions.
    - JavaScript numbers are modelled by [Z].  The matrices of the program
      hold integers read by [parseInt]; on the safe integers, up to
      2^53 - 1 in absolute value, the arithmetic of the program and the
      arithmetic of [Z] coincide.  Statements that rely on exact sums or
      products carry that bound ([safe_integer]).  Numbers print in plain
      decimal notation below 10^21 and in exponent notation from there on;
      statements that read printed numbers back with [parseInt] carry that
      bound ([plain_number]).
    - A JavaScript [Map] is an insertion-ordered association list: [set] on
      a present key overwrites in place, [set] on an absent key appends,
      [delete] removes.  Iteration ([for ... of]) walks the list in order.
    - The map key of the class is the template string [`${row},${col}`].
      It is modelled by the pair [(row, col)]; section [KeyEncoding] proves
      that the template is injective on integers and that
      [key.split(",").map(Number)] recovers the pair.
    - Strings that are scanned or produced (file contents, messages) are
      lists of characters.
    - A method that can throw returns a [result]; [Throw] carries the
      message of the [Error]. *)

From Stdlib Require Import Decimal DecimalString DecimalPos DecimalZ.
From Stdlib Require Import ZArith Bool Ascii String List Sorted Lia.
Import ListNotations.
Open Scope Z_scope.

(** ** Results of methods that may throw *)

Definition jsstring := list ascii.

Definition lit (s : string) : jsstring := list_ascii_of_string s.

Inductive result (A : Type) : Type :=
| Ok (a : A)
| Throw (message : jsstring).

Arguments Ok {A} a.
Arguments Throw {A} message.

Definition bind {A B} (r : result A) (k : A -> result B) : result B :=
  match r with
  | Ok a => k a
  | Throw m => Throw m
  end.

Notation "'let*' x ':=' r 'in' k" := (bind r (fun x => k))
  (at level 10, x name, r at level 100, k at level 200).

(** ** JavaScript [Map] as an insertion-ordered association list *)

Class KeyEq (K : Type) := {
  key_eqb : K -> K -> bool;
  key_eqb_spec : forall a b, key_eqb a b = true <-> a = b
}.

Definition pair_eqb (a b : Z * Z) : bool :=
  (fst a =? fst b) && (snd a =? snd b).

Lemma pair_eqb_spec (a b : Z * Z) : pair_eqb a b = true <-> a = b.
Proof.
  unfold pair_eqb. destruct a as [a1 a2], b as [b1 b2]; simpl.
  rewrite andb_true_iff, !Z.eqb_eq. split.
  - intros [-> ->]. reflexivity.
  - intros [= -> ->]. auto.
Qed.

#[export] Instance KeyEq_Z : KeyEq Z :=
  {| key_eqb := Z.eqb; key_eqb_spec := Z.eqb_eq |}.

#[export] Instance KeyEq_pair : KeyEq (Z * Z) :=
  {| key_eqb := pair_eqb; key_eqb_spec := pair_eqb_spec |}.

Section JsMap.
Context {K V : Type} `{KeyEq K}.

Definition jsmap := list (K * V).

Fixpoint map_get (k : K) (m : jsmap) : option V :=
  match m with
  | [] => None
  | (k', v) :: t => if key_eqb k k' then Some v else map_get k t
  end.

Definition map_has (k : K) (m : jsmap) : bool :=
  match map_get k m with Some _ => true | None => false end.

Fixpoint map_set (k : K) (v : V) (m : jsmap) : jsmap :=
  match m with
  | [] => [(k, v)]
  | (k', v') :: t =>
      if key_eqb k k' then (k, v) :: t else (k', v') :: map_set k v t
  end.

(** [delete]: no entry with the key remains. *)
Definition map_delete (k : K) (m : jsmap) : jsmap :=
  filter (fun e => negb (key_eqb k (fst e))) m.

Definition map_size (m : jsmap) : Z := Z.of_nat (List.length m).
End JsMap.

Arguments jsmap : clear implicits.

(** ** The class *)

Record SparseMatrix : Type := mkSparseMatrix {
  rows : Z;
  cols : Z;
  elements : jsmap (Z * Z) Z
}.

(** [new SparseMatrix({rows, cols})]: the object branch of the constructor.
    The test [input.rows && input.cols] is false when either is [0], and
    the constructor then throws. *)
Definition new_SparseMatrix (r c : Z) : result SparseMatrix :=
  if (r =? 0) || (c =? 0) then Throw (lit "Invalid input")
  else Ok (mkSparseMatrix r c []).

(** [this.elements.get(key) || 0] *)
Definition getElement (this : SparseMatrix) (row col : Z) : Z :=
  match map_get (row, col) (elements this) with
  | Some v => if v =? 0 then 0 else v
  | None => 0
  end.

Definition setElement (this : SparseMatrix) (row col value : Z) : SparseMatrix :=
  if negb (value =? 0)
  then mkSparseMatrix (rows this) (cols this)
         (map_set (row, col) value (elements this))
  else mkSparseMatrix (rows this) (cols this)
         (map_delete (row, col) (elements this)).

(** [for (let i = 0; i < n; i++)] visits [0, 1, ..., n-1] in order, and
    nothing when [n <= 0]. *)
Definition upto (n : Z) : list Z := map Z.of_nat (seq 0 (Z.to_nat n)).

Definition for_loop {S : Type} (n : Z) (body : Z -> S -> S) (s : S) : S :=
  fold_left (fun acc i => body i acc) (upto n) s.

Definition add (this other : SparseMatrix) : result SparseMatrix :=
  if negb (rows this =? rows other) || negb (cols this =? cols other)
  then Throw (lit "Matrix dimensions do not match for addition")
  else
    let* result := new_SparseMatrix (rows this) (cols this) in
    Ok (for_loop (rows this + 1) (fun row result =>
          for_loop (cols this + 1) (fun col result =>
            let sum := getElement this row col + getElement other row col in
            if negb (sum =? 0) then setElement result row col sum
            else result) result) result).

Definition subtract (this other : SparseMatrix) : result SparseMatrix :=
  if negb (rows this =? rows other) || negb (cols this =? cols other)
  then Throw (lit "Matrix dimensions do not match for subtraction")
  else
    let* result := new_SparseMatrix (rows this) (cols this) in
    Ok (for_loop (rows this) (fun row result =>
          for_loop (cols this) (fun col result =>
            let diff := getElement this row col - getElement other row col in
            if negb (diff =? 0) then setElement result row col diff
            else result) result) result).

(** *** multiply

    The progress callback is an observer living outside the matrices: it
    receives the fraction [operationsPerformed / totalOperations] and acts on
    a state [W] of its own.  The fraction is kept exact, as numerator and
    denominator. *)

Record progress : Type := mkProgress {
  performed : Z;
  total : Z
}.

Definition callback (W : Type) : Type := progress -> W -> W.

Definition progress_interval : Z := 1000000.

(** The column-indexed view of [other]: column index -> (row index -> value),
    built by one pass over the entries of [other]. *)
Definition build_column_index (other : SparseMatrix) : jsmap Z (jsmap Z Z) :=
  fold_left (fun columnIndexedOther entry =>
    let '((row, col), value) := entry in
    let columnIndexedOther :=
      if negb (map_has col columnIndexedOther)
      then map_set col [] columnIndexedOther
      else columnIndexedOther in
    match map_get col columnIndexedOther with
    | Some column =>
        map_set col (map_set row value column) columnIndexedOther
    | None => columnIndexedOther
    end) (elements other) [].

Definition multiply_step {W : Type}
    (columnIndexedOther : jsmap Z (jsmap Z Z))
    (totalOperations : Z) (progressCallback : option (callback W))
    (row1 col1 value1 : Z) (col2 : Z)
    (st : SparseMatrix * Z * W) : SparseMatrix * Z * W :=
  let '(result, operationsPerformed, w) := st in
  let result :=
    match map_get col2 columnIndexedOther with
    | Some column =>
        match map_get col1 column with
        | Some value2 =>
            let currentValue := getElement result row1 col2 in
            let newValue := currentValue + value1 * value2 in
            if negb (newValue =? 0)
            then setElement result row1 col2 newValue
            else result
        | None => result
        end
    | None => result
    end in
  let operationsPerformed := operationsPerformed + 1 in
  let w :=
    match progressCallback with
    | Some cb =>
        if Z.rem operationsPerformed progress_interval =? 0
        then cb (mkProgress operationsPerformed totalOperations) w
        else w
    | None => w
    end in
  (result, operationsPerformed, w).

Definition multiply_loop {W : Type} (this other : SparseMatrix)
    (progressCallback : option (callback W))
    (st : SparseMatrix * Z * W) : SparseMatrix * Z * W :=
  let columnIndexedOther := build_column_index other in
  let totalOperations := map_size (elements this) * cols other in
  fold_left (fun st entry =>
    let '((row1, col1), value1) := entry in
    for_loop (cols other)
      (multiply_step columnIndexedOther totalOperations
         progressCallback row1 col1 value1) st)
    (elements this) st.

Definition multiply {W : Type} (this other : SparseMatrix)
    (progressCallback : option (callback W)) (w : W)
  : result SparseMatrix * W :=
  if negb (cols this =? rows other)
  then (Throw (lit "Matrix dimensions are not compatible for multiplication"), w)
  else
    match new_SparseMatrix (rows this) (cols other) with
    | Throw m => (Throw m, w)
    | Ok result =>
        let '(result, _, w) :=
          multiply_loop this other progressCallback (result, 0, w) in
        (Ok result, w)
    end.

(** [this.multiply(other)]: the call without a callback. *)
Definition multiply0 (this other : SparseMatrix) : result SparseMatrix :=
  fst (multiply this other (@None (callback unit)) tt).

(** Matrices built the way a caller builds them: the constructor followed by
    [setElement] calls. *)
Definition matrix_of (r c : Z) (entries : list (Z * Z * Z)) : SparseMatrix :=
  fold_left (fun m e => let '(row, col, value) := e in setElement m row col value)
    entries (mkSparseMatrix r c []).

(** ** Strings: the string methods used by [toString] and [loadFromFile] *)

Definition nl : ascii := "010"%char.

(** White space as [trim] and [parseInt] see it, on characters below 256. *)
Definition is_ws (c : ascii) : bool :=
  let n := nat_of_ascii c in
  ((9 <=? n) && (n <=? 13) || (n =? 32) || (n =? 160))%nat.

Fixpoint trimStart (s : jsstring) : jsstring :=
  match s with
  | [] => []
  | c :: t => if is_ws c then trimStart t else s
  end.

Definition trimEnd (s : jsstring) : jsstring := rev (trimStart (rev s)).

Definition trim (s : jsstring) : jsstring := trimEnd (trimStart s).

Fixpoint startsWith (p s : jsstring) : bool :=
  match p, s with
  | [], _ => true
  | _ :: _, [] => false
  | a :: p', b :: s' => Ascii.eqb a b && startsWith p' s'
  end.

Definition endsWith (p s : jsstring) : bool := startsWith (rev p) (rev s).

(** [s.includes(p)] *)
Fixpoint includes (p s : jsstring) : bool :=
  startsWith p s || match s with [] => false | _ :: t => includes p t end.

(** [s.split(sep)] for a one-character separator. *)
Fixpoint split (sep : ascii) (s : jsstring) : list jsstring :=
  match s with
  | [] => [[]]
  | c :: t =>
      if Ascii.eqb c sep then [] :: split sep t
      else match split sep t with
           | h :: r => (c :: h) :: r
           | [] => [[c]]
           end
  end.

(** [s.slice(b, e)], negative indices counting from the end. *)
Definition slice (s : jsstring) (b e : Z) : jsstring :=
  let len := Z.of_nat (List.length s) in
  let from := if b <? 0 then Z.max (len + b) 0 else Z.min b len in
  let to := if e <? 0 then Z.max (len + e) 0 else Z.min e len in
  firstn (Z.to_nat (to - from)) (skipn (Z.to_nat from) s).

(** The digits of an integer written out, with a leading minus sign for
    negatives. *)
Definition plain_decimal (z : Z) : jsstring :=
  list_ascii_of_string (NilZero.string_of_int (Z.to_int z)).

Fixpoint drop_zeros (s : jsstring) : jsstring :=
  match s with
  | c :: t => if Ascii.eqb c "0" then drop_zeros t else s
  | [] => []
  end.

(** Exponent notation: the first digit, after a point the further digits
    up to the last one that is not zero, then [e+] and the decimal
    exponent, which is the number of digits less one. *)
Definition exponent_notation (z : Z) : jsstring :=
  let digits := plain_decimal (Z.abs z) in
  let n := Z.of_nat (List.length digits) in
  let s := rev (drop_zeros (rev digits)) in
  (if z <? 0 then lit "-" else []) ++
  match s with
  | d :: c :: more => d :: "."%char :: c :: more
  | _ => s
  end ++ lit "e+" ++ plain_decimal (n - 1).

(** Template-literal conversion of an integer ([Number::toString]): below
    10^21 in magnitude the digits are written out; from 10^21 on the text
    is in exponent notation, [1e+21] for 10^21.  The digits are those of
    the integer, which are the digits the program prints for every integer
    up to 2^53 and for every larger number that a double holds with at most
    fifteen significant digits. *)
Definition number_to_string (z : Z) : jsstring :=
  if Z.abs z <? 10 ^ 21 then plain_decimal z else exponent_notation z.

(** The value of a character as a digit, letters counting from ten. *)
Definition digit_value (c : ascii) : option Z :=
  let n := nat_of_ascii c in
  if ((48 <=? n) && (n <=? 57))%nat then Some (Z.of_nat (n - 48))
  else if ((97 <=? n) && (n <=? 122))%nat then Some (Z.of_nat (n - 87))
  else if ((65 <=? n) && (n <=? 90))%nat then Some (Z.of_nat (n - 55))
  else None.

(** Reads the longest prefix of digits of the radix; [acc] is [None] until a
    digit has been read. *)
Fixpoint parse_digits (radix : Z) (s : jsstring) (acc : option Z) : option Z :=
  match s with
  | [] => acc
  | c :: t =>
      match digit_value c with
      | Some d =>
          if d <? radix
          then parse_digits radix t
                 (Some (match acc with Some a => a * radix + d | None => d end))
          else acc
      | None => acc
      end
  end.

(** After the sign: a leading [0x] or [0X] selects radix 16, otherwise the
    radix is 10; then the digits are read. *)
Definition parse_magnitude (s : jsstring) : option Z :=
  let '(radix, s) :=
    match s with
    | c0 :: c1 :: t =>
        if Ascii.eqb c0 "0" && (Ascii.eqb c1 "x" || Ascii.eqb c1 "X")
        then (16, t) else (10, s)
    | _ => (10, s)
    end in
  parse_digits radix s None.

(** [parseInt(s)] without a radix; [None] stands for [NaN]. *)
Definition parseInt (s : jsstring) : option Z :=
  let s := trimStart s in
  let '(sign, s) :=
    match s with
    | c :: t =>
        if Ascii.eqb c "-" then (-1, t)
        else if Ascii.eqb c "+" then (1, t)
        else (1, s)
    | [] => (1, s)
    end in
  match parse_magnitude s with
  | Some n => Some (sign * n)
  | None => None
  end.

(** *** toString *)

Definition entry_line (row col value : Z) : jsstring :=
  lit "(" ++ number_to_string row ++ lit ", " ++ number_to_string col
  ++ lit ", " ++ number_to_string value ++ lit ")" ++ [nl].

Definition toString (this : SparseMatrix) : jsstring :=
  let result :=
    lit "rows=" ++ number_to_string (rows this) ++ [nl]
    ++ lit "cols=" ++ number_to_string (cols this) ++ [nl] in
  let result :=
    fold_left (fun result entry =>
      let '((row, col), value) := entry in
      result ++ entry_line row col value) (elements this) result in
  trim result.

(** *** loadFromFile

    The argument is the text that [fs.readFileSync] returns for the file.
    The source stores [parseInt]'s answer for the header lines unchecked;
    when that answer is [NaN] the matrix has no integer dimensions and the
    loader answers [None]. *)

Definition parse_element (line : jsstring) : result (Z * Z * Z) :=
  if startsWith (lit "(") line && endsWith (lit ")") line then
    let trimmedLine := slice line 1 (-1) in
    let parts := map trim (split ","%char trimmedLine) in
    match parts with
    | [p0; p1; p2] =>
        match parseInt p0, parseInt p1, parseInt p2 with
        | Some row, Some col, Some value => Ok (row, col, value)
        | _, _, _ => Throw (lit "Invalid numbers in element")
        end
    | _ => Throw (lit "Invalid element format")
    end
  else Throw (lit "Invalid element format").

Definition load_line (this : SparseMatrix) (raw : jsstring) : result SparseMatrix :=
  let line := trim raw in
  match line with
  | [] => Ok this
  | _ :: _ =>
      let* e := parse_element line in
      let '(row, col, value) := e in
      Ok (setElement this row col value)
  end.

Fixpoint load_lines (this : SparseMatrix) (lines : list jsstring) : result SparseMatrix :=
  match lines with
  | [] => Ok this
  | raw :: rest =>
      let* this := load_line this raw in
      load_lines this rest
  end.

Definition header_value (line : jsstring) : option Z :=
  match nth_error (split "="%char line) 1 with
  | Some field => parseInt field
  | None => None
  end.

Definition loadFromFile (text : jsstring) : option (result SparseMatrix) :=
  let content := split nl text in
  match content with
  | line0 :: rest0 =>
      if negb (startsWith (lit "rows=") line0)
      then Some (Throw (lit "Invalid file format"))
      else
        match rest0 with
        | [] =>
            Some (Throw (lit
              "Cannot read properties of undefined (reading 'startsWith')"))
        | line1 :: body =>
            if negb (startsWith (lit "cols=") line1)
            then Some (Throw (lit "Invalid file format"))
            else
              match header_value line0, header_value line1 with
              | Some r, Some c =>
                  Some (load_lines (mkSparseMatrix r c []) body)
              | _, _ =>
                  match load_lines (mkSparseMatrix 0 0 []) body with
                  | Throw m => Some (Throw m)
                  | Ok _ => None
                  end
              end
        end
  | [] => Some (Throw (lit "Invalid file format"))
  end.

(** ** The second implementation, [dsa/sparse_matrix/code/src/main.js]

    It shares the entry map, [getElement] and [setElement]; its constructor
    takes the two dimensions and does not throw; add and subtract copy the
    entries of [this] and fold the entries of [other] in; multiply is the
    nested scan of both entry lists. *)
Module Dsa.

Definition new_SparseMatrix (numRows numCols : Z) : SparseMatrix :=
  mkSparseMatrix numRows numCols [].

Definition copy_elements (this result : SparseMatrix) : SparseMatrix :=
  fold_left (fun result entry =>
    let '(key, value) := entry in
    mkSparseMatrix (rows result) (cols result)
      (map_set key value (elements result))) (elements this) result.

Definition add (this other : SparseMatrix) : result SparseMatrix :=
  if negb (cols this =? cols other) || negb (rows this =? rows other)
  then Throw (lit "Matrices dimensions do not match for addition")
  else
    let result := new_SparseMatrix (rows this) (cols this) in
    let result := copy_elements this result in
    Ok (fold_left (fun result entry =>
          let '((row, col), value) := entry in
          let newValue := getElement result row col + value in
          setElement result row col newValue) (elements other) result).

Definition subtract (this other : SparseMatrix) : result SparseMatrix :=
  if negb (rows this =? rows other) || negb (cols this =? cols other)
  then Throw (lit "Matrices dimensions do not match for subtraction")
  else
    let result := new_SparseMatrix (rows this) (cols this) in
    let result := copy_elements this result in
    Ok (fold_left (fun result entry =>
          let '((row, col), value) := entry in
          let newValue := getElement result row col - value in
          setElement result row col newValue) (elements other) result).

Definition multiply (this other : SparseMatrix) : result SparseMatrix :=
  if negb (cols this =? rows other)
  then Throw (lit "Matrices dimensions do not match for multiplication")
  else
    let result := new_SparseMatrix (rows this) (cols other) in
    Ok (fold_left (fun result entry1 =>
          let '((row1, col1), value1) := entry1 in
          fold_left (fun result entry2 =>
            let '((row2, col2), value2) := entry2 in
            if col1 =? row2 then
              let newValue := getElement result row1 col2 + value1 * value2 in
              setElement result row1 col2 newValue
            else result) (elements other) result)
          (elements this) result).

End Dsa.

(** ** Auxiliary notions used by the statements *)

(** The update of the result matrix in one pass of the inner loop of
    multiply, and the notification made after it. *)
Definition multiply_cell (columnIndexedOther : jsmap Z (jsmap Z Z))
    (row1 col1 value1 col2 : Z) (result : SparseMatrix) : SparseMatrix :=
  match map_get col2 columnIndexedOther with
  | Some column =>
      match map_get col1 column with
      | Some value2 =>
          let currentValue := getElement result row1 col2 in
          let newValue := currentValue + value1 * value2 in
          if negb (newValue =? 0)
          then setElement result row1 col2 newValue
          else result
      | None => result
      end
  | None => result
  end.

(** The matrix that the loops of multiply build, without counter or
    observer. *)
Definition multiply_matrix (this other result : SparseMatrix) : SparseMatrix :=
  fold_left (fun result entry =>
    let '((row1, col1), value1) := entry in
    for_loop (cols other)
      (multiply_cell (build_column_index other) row1 col1 value1) result)
    (elements this) result.

Definition notify {W : Type} (progressCallback : option (callback W))
    (totalOperations operationsPerformed : Z) (w : W) : W :=
  match progressCallback with
  | Some cb =>
      if Z.rem operationsPerformed progress_interval =? 0
      then cb (mkProgress operationsPerformed totalOperations) w
      else w
  | None => w
  end.

(** Notifications for the passes [n+1, ..., n+k]. *)
Fixpoint notify_run {W : Type} (progressCallback : option (callback W))
    (totalOperations n : Z) (k : nat) (w : W) : W :=
  match k with
  | O => w
  | S k' =>
      notify_run progressCallback totalOperations (n + 1) k'
        (notify progressCallback totalOperations (n + 1) w)
  end.

(** Number of passes of the inner loop of [this.multiply(other)]. *)
Definition passes (this other : SparseMatrix) : nat :=
  (List.length (elements this) * List.length (upto (cols other)))%nat.


(** The invariants of the entry map: keys are unique, as in any [Map], and
    no stored value is zero (I1). *)
Definition wf_elements (m : jsmap (Z * Z) Z) : Prop :=
  NoDup (map fst m) /\ Forall (fun e => snd e <> 0) m.


(** Two matrices store the same (row, col, value) triples. *)
Definition same_entries (a b : SparseMatrix) : Prop :=
  forall row col value,
    In ((row, col), value) (elements a) <-> In ((row, col), value) (elements b).

Definition in_range (i n : Z) : bool := (0 <=? i) && (i <? n).

(** One cell of a scan: the value [f row col] is stored when it is not zero. *)
Definition scan_cell (f : Z -> Z -> Z) (row col : Z) (result : SparseMatrix)
  : SparseMatrix :=
  if negb (f row col =? 0) then setElement result row col (f row col)
  else result.

Definition dense_scan (f : Z -> Z -> Z) (m n : Z) (result : SparseMatrix)
  : SparseMatrix :=
  for_loop m (fun row result =>
    for_loop n (fun col result => scan_cell f row col result) result) result.

(** The entry of the matrix product as the specification writes it:
    the sum over [k] of [this[i][k] * other[k][j]], [k] ranging over the
    columns of [this]. *)
Definition product_entry (this other : SparseMatrix) (i j : Z) : Z :=
  fold_left (fun s k => s + getElement this i k * getElement other k j)
    (upto (cols this)) 0.

(** Messages of the three dimension checks. *)
Definition add_mismatch : jsstring :=
  lit "Matrix dimensions do not match for addition".
Definition subtract_mismatch : jsstring :=
  lit "Matrix dimensions do not match for subtraction".
Definition multiply_mismatch : jsstring :=
  lit "Matrix dimensions are not compatible for multiplication".

(** Characters of rendered numbers. *)
Definition is_dec_digit (c : ascii) : bool :=
  let n := nat_of_ascii c in ((48 <=? n) && (n <=? 57))%nat.

Definition num_char (c : ascii) : bool :=
  is_dec_digit c || Ascii.eqb c "-" || Ascii.eqb c "." || Ascii.eqb c "e"
  || Ascii.eqb c "+".

Definition uint_chars (u : uint) : jsstring :=
  list_ascii_of_string (NilEmpty.string_of_uint u).

(** Value of a digit sequence read left to right from the accumulator [a]. *)
Fixpoint uint_val (u : uint) (a : Z) : Z :=
  match u with
  | Nil => a
  | D0 l => uint_val l (a * 10 + 0)
  | D1 l => uint_val l (a * 10 + 1)
  | D2 l => uint_val l (a * 10 + 2)
  | D3 l => uint_val l (a * 10 + 3)
  | D4 l => uint_val l (a * 10 + 4)
  | D5 l => uint_val l (a * 10 + 5)
  | D6 l => uint_val l (a * 10 + 6)
  | D7 l => uint_val l (a * 10 + 7)
  | D8 l => uint_val l (a * 10 + 8)
  | D9 l => uint_val l (a * 10 + 9)
  end.

(** A string without occurrence of a character; a string whose last
    character is not white space. *)
Definition no_char (sep : ascii) (s : jsstring) : Prop :=
  Forall (fun c => Ascii.eqb c sep = false) s.

Definition ends_nonws (s : jsstring) : Prop :=
  exists s' c, s = s' ++ [c] /\ is_ws c = false.

(** The lines of a matrix file, for a given way [pr] of writing numbers:
    the two header lines and an entry line without its line break. *)
Definition row_line_with (pr : Z -> jsstring) (r : Z) : jsstring :=
  lit "rows=" ++ pr r.
Definition col_line_with (pr : Z -> jsstring) (c : Z) : jsstring :=
  lit "cols=" ++ pr c.
Definition entry_text_with (pr : Z -> jsstring) (row col value : Z)
  : jsstring :=
  lit "(" ++ pr row ++ lit ", " ++ pr col ++ lit ", " ++ pr value ++ lit ")".
Definition entry_of_text_with (pr : Z -> jsstring) (e : Z * Z * Z)
  : jsstring :=
  entry_text_with pr (fst (fst e)) (snd (fst e)) (snd e).

(** The header lines, separated by line breaks from one line per listed
    entry. *)
Definition text_with (pr : Z -> jsstring) (r c : Z) (es : list (Z * Z * Z))
  : jsstring :=
  row_line_with pr r ++
  nl :: (col_line_with pr c ++
         concat (map (fun e => nl :: entry_of_text_with pr e) es)).

(** *** The key template

    [`${row},${col}`] and its inverse [key.split(",").map(Number)].
    [Number] is modelled on decimal numerals: an optional minus sign, digits
    with an optional point and further digits, and an optional exponent
    part.  A numeral whose value is not an integer, and any other text, is
    outside the integers and answers [None]. *)
Definition key_string (row col : Z) : jsstring :=
  number_to_string row ++ lit "," ++ number_to_string col.

(** Leading decimal digits of a text, and what follows them. *)
Fixpoint span_digits (s : jsstring) : jsstring * jsstring :=
  match s with
  | c :: t =>
      if is_dec_digit c
      then let '(ds, rest) := span_digits t in (c :: ds, rest)
      else ([], s)
  | [] => ([], [])
  end.

(** Value of a run of decimal digits. *)
Definition digits_value (ds : jsstring) : Z :=
  match parse_digits 10 ds None with
  | Some n => n
  | None => 0
  end.

(** The exponent part of a numeral: nothing, or [e] or [E], an optional
    sign and digits up to the end of the text. *)
Definition exponent_part (s : jsstring) : option Z :=
  match s with
  | [] => Some 0
  | c :: t =>
      if Ascii.eqb c "e" || Ascii.eqb c "E" then
        let '(sign, ds) :=
          match t with
          | c' :: t' =>
              if Ascii.eqb c' "-" then (-1, t')
              else if Ascii.eqb c' "+" then (1, t')
              else (1, t)
          | [] => (1, t)
          end in
        match ds with
        | [] => None
        | _ :: _ =>
            if forallb is_dec_digit ds then Some (sign * digits_value ds)
            else None
        end
      else None
  end.

(** A numeral without sign: digits, an optional point and further digits,
    an optional exponent part. *)
Definition unsigned_numeral (s : jsstring) : option Z :=
  let '(whole, rest) := span_digits s in
  let '(fraction, rest) :=
    match rest with
    | c :: t => if Ascii.eqb c "." then span_digits t else ([], rest)
    | [] => ([], rest)
    end in
  let mantissa := whole ++ fraction in
  match mantissa, exponent_part rest with
  | _ :: _, Some e =>
      let m := digits_value mantissa in
      let shift := e - Z.of_nat (List.length fraction) in
      if 0 <=? shift then Some (m * 10 ^ shift)
      else if m mod 10 ^ (- shift) =? 0 then Some (m / 10 ^ (- shift))
      else None
  | _, _ => None
  end.

Definition to_Number (s : jsstring) : option Z :=
  let '(sign, s) :=
    match s with
    | c :: t => if Ascii.eqb c "-" then (-1, t) else (1, s)
    | [] => (1, s)
    end in
  match unsigned_numeral s with
  | Some n => Some (sign * n)
  | None => None
  end.

Definition split_key (key : jsstring) : option (Z * Z) :=
  match map to_Number (split ","%char key) with
  | Some row :: Some col :: _ => Some (row, col)
  | _ => None
  end.

(** The pieces of the text that [toString] produces. *)
Definition row_line (r : Z) : jsstring := row_line_with number_to_string r.
Definition col_line (c : Z) : jsstring := col_line_with number_to_string c.
Definition entry_of_text (e : Z * Z * Z) : jsstring :=
  entry_of_text_with number_to_string e.

(** Integers that the template literal writes out in digits. *)
Definition plain_number (z : Z) : Prop := Z.abs z < 10 ^ 21.

(** A matrix whose dimensions, coordinates and values are all written out
    in digits. *)
Definition plain_matrix (this : SparseMatrix) : Prop :=
  plain_number (rows this) /\ plain_number (cols this) /\
  Forall (fun e => plain_number (fst (fst e)) /\
                   plain_number (snd (fst e)) /\ plain_number (snd e))
    (elements this).

(** Integers on which the arithmetic of the program is exact: the safe
    integers, up to [Number.MAX_SAFE_INTEGER] = 2^53 - 1 in magnitude. *)
Definition MAX_SAFE_INTEGER : Z := 9007199254740991.

Definition safe_integer (z : Z) : Prop := Z.abs z <= MAX_SAFE_INTEGER.

Definition safe_values (this : SparseMatrix) : Prop :=
  Forall (fun e => safe_integer (snd e)) (elements this).

(** The matrix of the magnitudes of the stored values. *)
Definition abs_values (this : SparseMatrix) : SparseMatrix :=
  mkSparseMatrix (rows this) (cols this)
    (map (fun e => (fst e, Z.abs (snd e))) (elements this)).

(** Matrices of the worked examples. *)
Definition exA : SparseMatrix := matrix_of 2 2 [(0,0,1); (1,1,2)].
Definition exB : SparseMatrix := matrix_of 2 2 [(0,0,3); (0,1,4)].

(** A 2x2 matrix holding an entry in row 2, as [setElement] and the loader
    accept it, and a partner of the same dimensions. *)
Definition edgeA : SparseMatrix := matrix_of 2 2 [(0,0,1); (2,1,7)].
Definition edgeB : SparseMatrix := matrix_of 2 2 [(0,0,3)].


(** Operands of mismatched shapes: 2x3 and 3x2. *)
Definition m23 : SparseMatrix := matrix_of 2 3 [(0,0,1)].
Definition m32 : SparseMatrix := matrix_of 3 2 [(0,0,1)].

(** A 1x1 matrix holding 10^21, the least integer printed in exponent
    notation. *)
Definition wideM : SparseMatrix := matrix_of 1 1 [(0, 0, 10 ^ 21)].

(** A row and a column whose product cancels to zero. *)
Definition cancelA : SparseMatrix := matrix_of 1 2 [(0,0,1); (0,1,-1)].
Definition cancelB : SparseMatrix := matrix_of 2 1 [(0,0,1); (1,0,1)].
Definition cancelC : SparseMatrix := matrix_of 2 1 [(0,0,1)].

(** ** Notions used by the further properties *)

(** One accumulation of multiply: the sum is kept unless it is zero, in
    which case the old value stays ([if (newValue !== 0)]). *)
Definition guarded_add (acc x : Z) : Z :=
  if negb (acc + x =? 0) then acc + x else acc.

(** What the loops of multiply accumulate at coordinate [(i, j)]: the
    entries of [this] in row [i], in map order, each met with the entry of
    [other] under [(col1, j)] when there is one. *)
Definition guarded_dot (this other : SparseMatrix) (i j : Z) : Z :=
  fold_left (fun acc entry =>
    let '((row1, col1), value1) := entry in
    if row1 =? i then
      match map_get (col1, j) (elements other) with
      | Some value2 => guarded_add acc (value1 * value2)
      | None => acc
      end
    else acc) (elements this) 0.

(** The same sum without the guard: over the stored entries of row [i]. *)
Definition sparse_dot (this other : SparseMatrix) (i j : Z) : Z :=
  fold_left (fun acc entry =>
    let '((row1, col1), value1) := entry in
    if row1 =? i then acc + value1 * getElement other col1 j else acc)
    (elements this) 0.

Definition all_positive (this : SparseMatrix) : Prop :=
  Forall (fun e => 0 < snd e) (elements this).

Definition unique_keys (this : SparseMatrix) : Prop :=
  NoDup (map fst (elements this)).

(** Every stored column index lies inside the declared column count. *)
Definition cols_in_range (this : SparseMatrix) : Prop :=
  forall row col value, In ((row, col), value) (elements this) ->
    0 <= col < cols this.

(** The non-zero values of [f] over [0, m) x [0, n), listed row by row,
    columns ascending within a row. *)
Definition dense_entries (f : Z -> Z -> Z) (m n : Z) : jsmap (Z * Z) Z :=
  flat_map (fun row =>
    flat_map (fun col =>
      if negb (f row col =? 0) then [((row, col), f row col)] else [])
      (upto n)) (upto m).

(** Sum of a list of integers. *)
Definition zsum (l : list Z) : Z := fold_right Z.add 0 l.

(** The second loop of add and subtract in [main.js]: each entry of [other]
    is combined into the value the result holds at its coordinate. *)
Definition accumulate (op : Z -> Z -> Z) (es : jsmap (Z * Z) Z)
    (result : SparseMatrix) : SparseMatrix :=
  fold_left (fun result entry =>
    let '((row, col), value) := entry in
    let newValue := op (getElement result row col) value in
    setElement result row col newValue) es result.

(** Reading the column-indexed view: [columnIndexedOther.get(col)] then
    [column.get(row)]. *)
Definition lookup2 (columnIndexedOther : jsmap Z (jsmap Z Z)) (row col : Z)
  : option Z :=
  match map_get col columnIndexedOther with
  | Some column => map_get row column
  | None => None
  end.

(** Row-major order of coordinates: by row, then by column. *)
Definition key_lt (a b : Z * Z) : Prop :=
  fst a < fst b \/ (fst a = fst b /\ snd a < snd b).

(** The text of a matrix file: the two header lines and one line per
    listed entry, separated by line breaks, every integer written out in
    decimal digits. *)
Definition matrix_text (r c : Z) (es : list (Z * Z * Z)) : jsstring :=
  text_with plain_decimal r c es.

(** ** File input and output of the second implementation

    [loadMatrix] does no validation.  It converts the fields with [Number],
    which is modelled on decimal numerals: surrounding white space is
    dropped, the empty text is 0, and an optional sign followed by a decimal
    numeral, exponent part included, is its value when that is an integer.
    Any other text ([NaN], fractions, and numerals in other notations) is
    outside the integers; a file holding one has no integer matrix and the
    loader answers [None]. *)
Module DsaFile.

Definition Number_of (s : jsstring) : option Z :=
  match trim s with
  | [] => Some 0
  | c :: t =>
      if Ascii.eqb c "+" then
        match t with
        | c' :: _ => if Ascii.eqb c' "-" then None else to_Number t
        | [] => None
        end
      else to_Number (c :: t)
  end.

(** [const [row, col, value] = line.slice(1, -1).split(',').map(Number)] *)
Definition load_entry (line : jsstring) : option (Z * Z * Z) :=
  match map Number_of (split ","%char (slice line 1 (-1))) with
  | Some row :: Some col :: Some value :: _ => Some (row, col, value)
  | _ => None
  end.

Fixpoint load_entries (this : SparseMatrix) (lines : list jsstring)
  : option SparseMatrix :=
  match lines with
  | [] => Some this
  | raw :: rest =>
      match trim raw with
      | [] => load_entries this rest
      | line =>
          match load_entry line with
          | Some (row, col, value) =>
              load_entries (setElement this row col value) rest
          | None => None
          end
      end
  end.

Definition loadMatrix (content : jsstring) : option (result SparseMatrix) :=
  match split nl content with
  | line0 :: line1 :: body =>
      match header_value line0, header_value line1 with
      | Some r, Some c =>
          match load_entries (mkSparseMatrix r c []) body with
          | Some this => Some (Ok this)
          | None => None
          end
      | _, _ => None
      end
  | _ =>
      Some (Throw (lit "Cannot read properties of undefined (reading 'split')"))
  end.

(** The content that [saveResult] hands to [fs.writeFileSync]. *)
Definition saveResult (this : SparseMatrix) : jsstring :=
  let content := lit "rows=" ++ number_to_string (rows this) ++ [nl] in
  let content := content ++ lit "cols=" ++ number_to_string (cols this) ++ [nl] in
  fold_left (fun content entry =>
    let '((row, col), value) := entry in
    content ++ entry_line row col value) (elements this) content.

End DsaFile.

(** ** The drivers

    Files and the console are modelled by what is handed to them: the
    content given to [fs.writeFile] / [fs.writeFileSync], and the sequence
    of console lines.  A progress line is recorded by the fraction it
    prints (the percentage formatting is floating-point). *)

Fixpoint str_eqb (a b : jsstring) : bool :=
  match a, b with
  | [], [] => true
  | x :: a', y :: b' => Ascii.eqb x y && str_eqb a' b'
  | _, _ => false
  end.

Inductive console_line : Type :=
| LogText (text : jsstring)
| LogProgress (p : progress).

(** [performOperation(operation)] of the interactive driver, for the two
    matrices loaded at start-up.  It returns what is written to
    [results.txt] ([None] when nothing is written) and the console lines. *)
Definition performOperation (matrix1 matrix2 : SparseMatrix)
    (operation : jsstring)
  : result (option jsstring) * list console_line :=
  let saved := LogText (lit "Results have been saved to results.txt") in
  if str_eqb operation (lit "add") then
    match add matrix1 matrix2 with
    | Ok result => (Ok (Some (toString result)), [saved])
    | Throw m => (Throw m, [])
    end
  else if str_eqb operation (lit "subtract") then
    match subtract matrix1 matrix2 with
    | Ok result => (Ok (Some (toString result)), [saved])
    | Throw m => (Throw m, [])
    end
  else if str_eqb operation (lit "multiply") then
    match multiply matrix1 matrix2
            (Some (fun progress console => console ++ [LogProgress progress]))
            [] with
    | (Ok result, console) => (Ok (Some (toString result)), console ++ [saved])
    | (Throw m, console) => (Throw m, console)
    end
  else (Ok None, [LogText (lit "Invalid operation")]).

(** [main()] of [main.js] on the contents of its two input files: the two
    files it writes, addition first.  [None] when an input holds a number
    outside the integers. *)
Definition dsa_main (content1 content2 : jsstring)
  : option (result (list jsstring)) :=
  match DsaFile.loadMatrix content1 with
  | None => None
  | Some (Throw m) => Some (Throw m)
  | Some (Ok matrix1) =>
      match DsaFile.loadMatrix content2 with
      | None => None
      | Some (Throw m) => Some (Throw m)
      | Some (Ok matrix2) =>
          Some (let* resultAdd := Dsa.add matrix1 matrix2 in
                let* resultSub := Dsa.subtract matrix1 matrix2 in
                Ok [DsaFile.saveResult resultAdd; DsaFile.saveResult resultSub])
      end
  end.

(** * Properties *)

(** ** The map layer *)

Lemma NoDup_snoc {A : Type} (l : list A) (a : A) :
  NoDup l -> ~ In a l -> NoDup (l ++ [a]).
Proof.
  induction l as [|b t IH]; simpl; intros Hnd Hnotin.
  - constructor; [intros []|constructor].
  - inversion Hnd as [|? ? Hb Hnd']; subst. constructor.
    + rewrite in_app_iff. simpl. intros [Hin|[Heq|[]]]; [contradiction|].
      subst. apply Hnotin. left. reflexivity.
    + apply IH; [exact Hnd'|]. intros Hin. apply Hnotin. right. exact Hin.
Qed.

Section JsMapFacts.
Context {K V : Type} `{KeyEq K}.
Implicit Types (k : K) (v : V) (m : jsmap K V).

Lemma key_eqb_refl k : key_eqb k k = true.
Proof. apply key_eqb_spec. reflexivity. Qed.

Lemma key_eqb_neq k k' : k <> k' -> key_eqb k k' = false.
Proof.
  intros Hne. destruct (key_eqb k k') eqn:E; [|reflexivity].
  apply key_eqb_spec in E. contradiction.
Qed.


Lemma map_get_set_same k v m : map_get k (map_set k v m) = Some v.
Proof.
  induction m as [|[k' v'] t IH]; simpl.
  - rewrite key_eqb_refl. reflexivity.
  - destruct (key_eqb k k') eqn:E; simpl.
    + rewrite key_eqb_refl. reflexivity.
    + rewrite E. exact IH.
Qed.

Lemma map_get_set_other k k' v m :
  k <> k' -> map_get k' (map_set k v m) = map_get k' m.
Proof.
  intros Hne. induction m as [|[k0 v0] t IH]; simpl.
  - rewrite key_eqb_neq by congruence. reflexivity.
  - destruct (key_eqb k k0) eqn:E; simpl.
    + apply key_eqb_spec in E. subst k0.
      rewrite !key_eqb_neq by congruence. reflexivity.
    + rewrite IH. reflexivity.
Qed.

Lemma map_get_delete_same k m : map_get k (map_delete k m) = None.
Proof.
  unfold map_delete. induction m as [|[k' v'] t IH]; simpl.
  - reflexivity.
  - destruct (key_eqb k k') eqn:E; simpl.
    + exact IH.
    + rewrite E. exact IH.
Qed.

Lemma map_get_delete_other k k' m :
  k <> k' -> map_get k' (map_delete k m) = map_get k' m.
Proof.
  intros Hne. unfold map_delete.
  induction m as [|[k0 v0] t IH]; simpl.
  - reflexivity.
  - destruct (key_eqb k k0) eqn:E; simpl.
    + apply key_eqb_spec in E. subst k0.
      rewrite key_eqb_neq by congruence. exact IH.
    + rewrite IH. reflexivity.
Qed.

Lemma map_get_In k v m : map_get k m = Some v -> In (k, v) m.
Proof.
  induction m as [|[k' v'] t IH]; simpl.
  - discriminate.
  - destruct (key_eqb k k') eqn:E.
    + apply key_eqb_spec in E. subst k'. intros [= ->]. left. reflexivity.
    + intros Hg. right. apply IH. exact Hg.
Qed.

Lemma map_get_None_not_In k m :
  map_get k m = None -> forall v, ~ In (k, v) m.
Proof.
  induction m as [|[k' v'] t IH]; simpl.
  - intros _ v [].
  - destruct (key_eqb k k') eqn:E; [discriminate|].
    intros Hg v [Heq|Hin].
    + injection Heq as -> ->. rewrite key_eqb_refl in E. discriminate.
    + eapply IH; eassumption.
Qed.

Lemma In_map_get k v m :
  NoDup (map fst m) -> In (k, v) m -> map_get k m = Some v.
Proof.
  induction m as [|[k' v'] t IH]; simpl.
  - intros _ [].
  - intros Hnd [Heq|Hin].
    + injection Heq as -> ->. rewrite key_eqb_refl. reflexivity.
    + inversion Hnd as [|? ? Hnotin Hnd']; subst.
      destruct (key_eqb k k') eqn:E.
      * apply key_eqb_spec in E. subst k'. exfalso. apply Hnotin.
        apply (in_map fst) in Hin. exact Hin.
      * apply IH; assumption.
Qed.

(** Keys after [set]: unchanged when the key was present, extended at the
    end otherwise. *)
Lemma map_set_absent k v m :
  map_get k m = None -> map_set k v m = m ++ [(k, v)].
Proof.
  induction m as [|[k' v'] t IH]; simpl.
  - reflexivity.
  - destruct (key_eqb k k') eqn:E; [discriminate|].
    intros Hg. rewrite IH by exact Hg. reflexivity.
Qed.

Lemma map_set_keys_present k v v0 m :
  map_get k m = Some v0 -> map fst (map_set k v m) = map fst m.
Proof.
  induction m as [|[k' v'] t IH]; simpl.
  - discriminate.
  - destruct (key_eqb k k') eqn:E; simpl.
    + apply key_eqb_spec in E. subst k'. reflexivity.
    + intros Hg. rewrite IH by exact Hg. reflexivity.
Qed.

Lemma map_get_None_keys k m :
  map_get k m = None -> ~ In k (map fst m).
Proof.
  intros Hg Hin. apply in_map_iff in Hin. destruct Hin as [[k' v'] [Hk Hin]].
  simpl in Hk. subst k'. eapply map_get_None_not_In; eassumption.
Qed.

Lemma map_set_NoDup k v m :
  NoDup (map fst m) -> NoDup (map fst (map_set k v m)).
Proof.
  intros Hnd. destruct (map_get k m) as [v0|] eqn:Hg.
  - erewrite map_set_keys_present by eassumption. exact Hnd.
  - rewrite map_set_absent by assumption. rewrite map_app. simpl.
    apply NoDup_snoc; [exact Hnd|]. apply map_get_None_keys. exact Hg.
Qed.

Lemma map_delete_NoDup k m :
  NoDup (map fst m) -> NoDup (map fst (map_delete k m)).
Proof.
  unfold map_delete. induction m as [|[k' v'] t IH]; simpl; intros Hnd.
  - constructor.
  - inversion Hnd as [|? ? Hnotin Hnd']; subst.
    destruct (key_eqb k k'); simpl.
    + apply IH. exact Hnd'.
    + constructor; [|apply IH; exact Hnd'].
      intros Hin. apply Hnotin. apply in_map_iff in Hin.
      destruct Hin as [e [He Hin]]. apply filter_In in Hin.
      apply in_map_iff. exists e. tauto.
Qed.

Lemma In_map_set k v k' v' m :
  In (k', v') (map_set k v m) -> (k', v') = (k, v) \/ In (k', v') m.
Proof.
  induction m as [|[k0 v0] t IH]; simpl.
  - intros [Heq|[]]. left. symmetry. exact Heq.
  - destruct (key_eqb k k0); simpl.
    + intros [Heq|Hin]; [left; symmetry; exact Heq|right; right; exact Hin].
    + intros [Heq|Hin]; [right; left; exact Heq|].
      destruct (IH Hin) as [Heq|Hin']; [left; exact Heq|right; right; exact Hin'].
Qed.
End JsMapFacts.

(** ** getElement and setElement *)

Lemma rows_setElement this row col value :
  rows (setElement this row col value) = rows this.
Proof. unfold setElement. destruct (negb (value =? 0)); reflexivity. Qed.

Lemma cols_setElement this row col value :
  cols (setElement this row col value) = cols this.
Proof. unfold setElement. destruct (negb (value =? 0)); reflexivity. Qed.

Lemma getElement_setElement_same this row col value :
  getElement (setElement this row col value) row col = value.
Proof.
  unfold getElement, setElement.
  destruct (value =? 0) eqn:E; simpl.
  - rewrite map_get_delete_same. symmetry. apply Z.eqb_eq. exact E.
  - rewrite map_get_set_same, E. reflexivity.
Qed.

Lemma getElement_setElement_other this row col value row' col' :
  (row, col) <> (row', col') ->
  getElement (setElement this row col value) row' col' = getElement this row' col'.
Proof.
  intros Hne. unfold getElement, setElement.
  destruct (value =? 0); simpl.
  - rewrite map_get_delete_other by (exact Hne). reflexivity.
  - rewrite map_get_set_other by (exact Hne). reflexivity.
Qed.

Lemma getElement_setElement this row col value row' col' :
  getElement (setElement this row col value) row' col' =
  if (row =? row') && (col =? col') then value else getElement this row' col'.
Proof.
  destruct ((row =? row') && (col =? col')) eqn:E.
  - apply andb_true_iff in E. rewrite !Z.eqb_eq in E. destruct E as [-> ->].
    apply getElement_setElement_same.
  - apply getElement_setElement_other. intros [= -> ->].
    rewrite !Z.eqb_refl in E. discriminate.
Qed.

Lemma wf_elements_nil : wf_elements [].
Proof. split; constructor. Qed.

Lemma wf_setElement this row col value :
  wf_elements (elements this) ->
  wf_elements (elements (setElement this row col value)).
Proof.
  intros [Hnd Hnz]. unfold setElement.
  destruct (value =? 0) eqn:E; simpl; split.
  - apply map_delete_NoDup. exact Hnd.
  - rewrite Forall_forall in *. intros e Hin. apply Hnz.
    unfold map_delete in Hin. apply filter_In in Hin. tauto.
  - apply map_set_NoDup. exact Hnd.
  - rewrite Forall_forall in *. intros [k v] Hin.
    apply In_map_set in Hin. destruct Hin as [Heq|Hin].
    + injection Heq as -> ->. simpl. apply Z.eqb_neq. exact E.
    + apply Hnz. exact Hin.
Qed.

Lemma wf_matrix_of r c entries : wf_elements (elements (matrix_of r c entries)).
Proof.
  unfold matrix_of.
  assert (G : forall m, wf_elements (elements m) ->
    wf_elements (elements (fold_left (fun m e =>
      let '(row, col, value) := e in setElement m row col value) entries m))).
  { induction entries as [|[[row col] value] t IH]; simpl; intros m Hm.
    - exact Hm.
    - apply IH. apply wf_setElement. exact Hm. }
  apply G. apply wf_elements_nil.
Qed.

(** Under the invariants, the stored triples are exactly the non-zero values
    that [getElement] reads. *)
Lemma In_elements_getElement this row col value :
  wf_elements (elements this) ->
  (In ((row, col), value) (elements this) <->
   getElement this row col = value /\ value <> 0).
Proof.
  intros [Hnd Hnz]. unfold getElement. split.
  - intros Hin. rewrite (In_map_get _ _ _ Hnd Hin).
    rewrite Forall_forall in Hnz. specialize (Hnz _ Hin). simpl in Hnz.
    apply Z.eqb_neq in Hnz. rewrite Hnz. split; [reflexivity|].
    apply Z.eqb_neq. exact Hnz.
  - intros [Hg Hne].
    destruct (map_get (row, col) (elements this)) as [v|] eqn:E.
    + apply map_get_In in E. destruct (v =? 0); congruence.
    + congruence.
Qed.

(** Two well-formed matrices that read alike everywhere store the same
    triples. *)
Lemma same_entries_of_getElement a b :
  wf_elements (elements a) -> wf_elements (elements b) ->
  (forall row col, getElement a row col = getElement b row col) ->
  same_entries a b.
Proof.
  intros Ha Hb Hget row col value.
  rewrite (In_elements_getElement a row col value Ha),
    (In_elements_getElement b row col value Hb).
  rewrite Hget. reflexivity.
Qed.

(** ** The dense scans of add and subtract *)

Lemma upto_In (n i : Z) : In i (upto n) <-> 0 <= i < n.
Proof.
  unfold upto. rewrite in_map_iff. split.
  - intros [k [<- Hin]]. apply in_seq in Hin. lia.
  - intros Hi. exists (Z.to_nat i). split; [lia|]. apply in_seq. lia.
Qed.

Lemma in_range_spec (i n : Z) : in_range i n = true <-> 0 <= i < n.
Proof. unfold in_range. rewrite andb_true_iff, Z.leb_le, Z.ltb_lt. tauto. Qed.

Lemma existsb_upto_eq (n r : Z) (b : bool) :
  existsb (fun i => (i =? r) && b) (upto n) = in_range r n && b.
Proof.
  apply eq_true_iff_eq. rewrite existsb_exists, andb_true_iff, in_range_spec.
  split.
  - intros [i [Hin Hb]]. apply andb_true_iff in Hb. destruct Hb as [Hi Hb].
    apply Z.eqb_eq in Hi. subst i. apply upto_In in Hin. tauto.
  - intros [Hr Hb]. exists r. split; [apply upto_In; exact Hr|].
    rewrite Z.eqb_refl. exact Hb.
Qed.

Lemma getElement_fold {A : Type} (step : A -> SparseMatrix -> SparseMatrix)
    (hit : A -> bool) (val : Z) (r c : Z) :
  (forall i acc, getElement (step i acc) r c =
                 if hit i then val else getElement acc r c) ->
  forall l acc,
    getElement (fold_left (fun acc i => step i acc) l acc) r c =
    if existsb hit l then val else getElement acc r c.
Proof.
  intros Hstep. induction l as [|i t IH]; simpl; intros acc.
  - reflexivity.
  - rewrite IH, Hstep. destruct (hit i), (existsb hit t); reflexivity.
Qed.

Lemma invariant_fold {A : Type} (P : SparseMatrix -> Prop)
    (step : A -> SparseMatrix -> SparseMatrix) :
  (forall i acc, P acc -> P (step i acc)) ->
  forall l acc, P acc -> P (fold_left (fun acc i => step i acc) l acc).
Proof.
  intros Hstep. induction l as [|i t IH]; simpl; intros acc Hacc.
  - exact Hacc.
  - apply IH. apply Hstep. exact Hacc.
Qed.

Lemma getElement_scan_cell f row col acc r c :
  getElement (scan_cell f row col acc) r c =
  if (row =? r) && ((col =? c) && negb (f r c =? 0)) then f r c
  else getElement acc r c.
Proof.
  unfold scan_cell.
  destruct (row =? r) eqn:Er, (col =? c) eqn:Ec; simpl;
    try apply Z.eqb_eq in Er; try apply Z.eqb_eq in Ec; subst;
    destruct (negb (_ =? 0)); try reflexivity;
    rewrite getElement_setElement;
    rewrite ?Z.eqb_refl, ?Er, ?Ec, ?andb_false_r; reflexivity.
Qed.

Lemma getElement_dense_scan f m n acc r c :
  getElement (dense_scan f m n acc) r c =
  if in_range r m && (in_range c n && negb (f r c =? 0)) then f r c
  else getElement acc r c.
Proof.
  unfold dense_scan, for_loop.
  rewrite (getElement_fold
    (fun row result => fold_left (fun acc i => scan_cell f row i acc) (upto n) result)
    (fun row => (row =? r) && (in_range c n && negb (f r c =? 0))) (f r c)).
  - rewrite existsb_upto_eq. reflexivity.
  - intros row acc'.
    rewrite (getElement_fold (fun col result => scan_cell f row col result)
      (fun col => (col =? c) && ((row =? r) && negb (f r c =? 0))) (f r c)).
    + rewrite existsb_upto_eq.
      destruct (row =? r), (in_range c n), (negb (f r c =? 0)); reflexivity.
    + intros col acc''. rewrite getElement_scan_cell.
      destruct (row =? r), (col =? c), (negb (f r c =? 0)); reflexivity.
Qed.

Lemma dense_scan_invariant (P : SparseMatrix -> Prop) f m n acc :
  (forall row col value a, P a -> P (setElement a row col value)) ->
  P acc -> P (dense_scan f m n acc).
Proof.
  intros Hset Hacc. unfold dense_scan, for_loop.
  apply (invariant_fold P (fun row result =>
    fold_left (fun acc i => scan_cell f row i acc) (upto n) result));
    [|exact Hacc].
  intros row a Ha.
  apply (invariant_fold P (fun col result => scan_cell f row col result));
    [|exact Ha].
  intros col a' Ha'. unfold scan_cell.
  destruct (negb (f row col =? 0)); [apply Hset|]; exact Ha'.
Qed.

Lemma wf_dense_scan f m n acc :
  wf_elements (elements acc) -> wf_elements (elements (dense_scan f m n acc)).
Proof.
  apply (dense_scan_invariant (fun a => wf_elements (elements a))).
  intros. apply wf_setElement. assumption.
Qed.

Lemma rows_dense_scan f m n acc : rows (dense_scan f m n acc) = rows acc.
Proof.
  apply (dense_scan_invariant (fun a => rows a = rows acc)); [|reflexivity].
  intros. rewrite rows_setElement. assumption.
Qed.

Lemma cols_dense_scan f m n acc : cols (dense_scan f m n acc) = cols acc.
Proof.
  apply (dense_scan_invariant (fun a => cols a = cols acc)); [|reflexivity].
  intros. rewrite cols_setElement. assumption.
Qed.

(** add and subtract, as dense scans over a fresh matrix. *)
Lemma add_eq this other :
  add this other =
  if negb (rows this =? rows other) || negb (cols this =? cols other)
  then Throw (lit "Matrix dimensions do not match for addition")
  else if (rows this =? 0) || (cols this =? 0)
  then Throw (lit "Invalid input")
  else Ok (dense_scan (fun r c => getElement this r c + getElement other r c)
             (rows this + 1) (cols this + 1)
             (mkSparseMatrix (rows this) (cols this) [])).
Proof.
  unfold add, new_SparseMatrix.
  destruct (negb (rows this =? rows other) || negb (cols this =? cols other));
    [reflexivity|].
  destruct ((rows this =? 0) || (cols this =? 0)); reflexivity.
Qed.

Lemma subtract_eq this other :
  subtract this other =
  if negb (rows this =? rows other) || negb (cols this =? cols other)
  then Throw (lit "Matrix dimensions do not match for subtraction")
  else if (rows this =? 0) || (cols this =? 0)
  then Throw (lit "Invalid input")
  else Ok (dense_scan (fun r c => getElement this r c - getElement other r c)
             (rows this) (cols this)
             (mkSparseMatrix (rows this) (cols this) [])).
Proof.
  unfold subtract, new_SparseMatrix.
  destruct (negb (rows this =? rows other) || negb (cols this =? cols other));
    [reflexivity|].
  destruct ((rows this =? 0) || (cols this =? 0)); reflexivity.
Qed.

Lemma getElement_empty r c rw cl : getElement (mkSparseMatrix rw cl []) r c = 0.
Proof. reflexivity. Qed.


(** What a returned sum or difference reads at any coordinate. *)
Lemma add_inv this other R :
  add this other = Ok R ->
  rows R = rows this /\ cols R = cols this /\ wf_elements (elements R) /\
  forall r c, getElement R r c =
    if in_range r (rows this + 1) && in_range c (cols this + 1)
    then getElement this r c + getElement other r c else 0.
Proof.
  rewrite add_eq.
  destruct (negb (rows this =? rows other) || negb (cols this =? cols other));
    [discriminate|].
  destruct ((rows this =? 0) || (cols this =? 0)); [discriminate|].
  intros [= <-]. rewrite rows_dense_scan, cols_dense_scan. simpl.
  split; [reflexivity|split; [reflexivity|split]].
  - apply wf_dense_scan. apply wf_elements_nil.
  - intros r c. rewrite getElement_dense_scan, getElement_empty.
    destruct (in_range r (rows this + 1)), (in_range c (cols this + 1)); simpl;
      try reflexivity.
    destruct (_ =? 0) eqn:E; simpl; [|reflexivity].
    apply Z.eqb_eq in E. symmetry. exact E.
Qed.

Lemma subtract_inv this other R :
  subtract this other = Ok R ->
  rows R = rows this /\ cols R = cols this /\ wf_elements (elements R) /\
  forall r c, getElement R r c =
    if in_range r (rows this) && in_range c (cols this)
    then getElement this r c - getElement other r c else 0.
Proof.
  rewrite subtract_eq.
  destruct (negb (rows this =? rows other) || negb (cols this =? cols other));
    [discriminate|].
  destruct ((rows this =? 0) || (cols this =? 0)); [discriminate|].
  intros [= <-]. rewrite rows_dense_scan, cols_dense_scan. simpl.
  split; [reflexivity|split; [reflexivity|split]].
  - apply wf_dense_scan. apply wf_elements_nil.
  - intros r c. rewrite getElement_dense_scan, getElement_empty.
    destruct (in_range r (rows this)), (in_range c (cols this)); simpl;
      try reflexivity.
    destruct (_ =? 0) eqn:E; simpl; [|reflexivity].
    apply Z.eqb_eq in E. symmetry. exact E.
Qed.

Lemma dims_check_false (a b c d : Z) :
  a = b -> c = d -> negb (a =? b) || negb (c =? d) = false.
Proof. intros -> ->. rewrite !Z.eqb_refl. reflexivity. Qed.





(** * The claims *)

(** C6.  [getElement] and [setElement] are total on all integer coordinates
    (they are plain functions: no coordinate makes them throw).  Setting a
    non-zero value and reading the same coordinate gives the value back;
    setting [0] leaves no entry under the key, and the coordinate reads [0]. *)
Theorem C6_setElement_getElement (this : SparseMatrix) (row col value : Z) :
  (value <> 0 -> getElement (setElement this row col value) row col = value) /\
  getElement (setElement this row col 0) row col = 0 /\
  map_get (row, col) (elements (setElement this row col 0)) = None /\
  (forall v, ~ In ((row, col), v) (elements (setElement this row col 0))).
Proof.
  split; [|split; [|split]].
  - intros _. apply getElement_setElement_same.
  - apply getElement_setElement_same.
  - unfold setElement. simpl. apply map_get_delete_same.
  - apply map_get_None_not_In. unfold setElement. simpl.
    apply map_get_delete_same.
Qed.

Lemma C6_witness :
  getElement (setElement (matrix_of 2 2 [(0,0,1)]) 7 (-3) 5) 7 (-3) = 5.
Proof.
  apply (proj1 (C6_setElement_getElement (matrix_of 2 2 [(0,0,1)]) 7 (-3) 5)).
  lia.
Defined.





(** Values read from a matrix are bounded like its stored values. *)
Lemma getElement_bounded this b row col :
  0 <= b -> Forall (fun e => Z.abs (snd e) <= b) (elements this) ->
  Z.abs (getElement this row col) <= b.
Proof.
  intros Hb Hall. unfold getElement.
  destruct (map_get (row, col) (elements this)) as [v|] eqn:E; [|simpl; lia].
  apply map_get_In in E. rewrite Forall_forall in Hall.
  specialize (Hall _ E). simpl in Hall. destruct (v =? 0); lia.
Qed.

Lemma safe_sums_bounded A B b :
  0 <= b -> 2 * b <= MAX_SAFE_INTEGER ->
  Forall (fun e => Z.abs (snd e) <= b) (elements A) ->
  Forall (fun e => Z.abs (snd e) <= b) (elements B) ->
  forall row col, safe_integer (getElement A row col + getElement B row col).
Proof.
  intros Hb Hmax HA HB row col. unfold safe_integer.
  pose proof (getElement_bounded A b row col Hb HA).
  pose proof (getElement_bounded B b row col Hb HB). lia.
Qed.

Lemma safe_values_bounded A b :
  b <= MAX_SAFE_INTEGER ->
  Forall (fun e => Z.abs (snd e) <= b) (elements A) -> safe_values A.
Proof.
  intros Hb HA. unfold safe_values, safe_integer.
  eapply Forall_impl; [|exact HA]. intros e He. cbv beta in He. lia.
Qed.



Lemma values_bounded_exA : Forall (fun e => Z.abs (snd e) <= 4) (elements exA).
Proof. repeat constructor; simpl; lia. Qed.

Lemma values_bounded_exB : Forall (fun e => Z.abs (snd e) <= 4) (elements exB).
Proof. repeat constructor; simpl; lia. Qed.



(** ** Bounds of the two scans *)





(** C5.  The worked example: A = 2x2 {(0,0):1, (1,1):2},
    B = 2x2 {(0,0):3, (0,1):4}.  The three results hold exactly the stated
    entries. *)
Theorem C5_worked_example :
  add exA exB = Ok (mkSparseMatrix 2 2 [((0,0),4); ((0,1),4); ((1,1),2)]) /\
  subtract exA exB =
    Ok (mkSparseMatrix 2 2 [((0,0),-2); ((0,1),-4); ((1,1),2)]) /\
  multiply0 exA exB = Ok (mkSparseMatrix 2 2 [((0,0),3); ((0,1),4)]).
Proof. repeat split; vm_compute; reflexivity. Qed.

(** ** Dimension checks *)

Lemma dims_check_spec (a b c d : Z) :
  negb (a =? b) || negb (c =? d) = true <-> a <> b \/ c <> d.
Proof.
  rewrite orb_true_iff, !negb_true_iff, !Z.eqb_neq. reflexivity.
Qed.

Lemma multiply_mismatch_iff {W : Type} (A B : SparseMatrix)
    (cb : option (callback W)) (w : W) :
  fst (multiply A B cb w) = Throw multiply_mismatch <-> cols A <> rows B.
Proof.
  unfold multiply. destruct (cols A =? rows B) eqn:E; simpl.
  - apply Z.eqb_eq in E. split; [|intros Hne; contradiction].
    unfold new_SparseMatrix.
    destruct ((rows A =? 0) || (cols B =? 0)); simpl.
    + intros Hm. discriminate Hm.
    + destruct (multiply_loop A B cb _) as [[r n] w']. simpl.
      intros Hm. discriminate Hm.
  - apply Z.eqb_neq in E. split; [intros _; exact E|reflexivity].
Qed.

(** C3, amended.  add and subtract throw their dimension error exactly when
    the row counts or the column counts differ, multiply exactly when
    [this.cols] differs from [other.rows].  The error carries a fixed
    message that names the operation and not the dimensions.  On such a
    failure nothing is returned (the outcome is [Throw], never a matrix),
    the progress callback is not invoked, and the operands, which the
    methods only read, are what they were. *)
Theorem C3_dimension_mismatch (A B : SparseMatrix) :
  (add A B = Throw add_mismatch <-> rows A <> rows B \/ cols A <> cols B) /\
  (subtract A B = Throw subtract_mismatch <->
     rows A <> rows B \/ cols A <> cols B) /\
  (forall (W : Type) (cb : option (callback W)) (w : W),
     (fst (multiply A B cb w) = Throw multiply_mismatch <->
        cols A <> rows B) /\
     (cols A <> rows B -> snd (multiply A B cb w) = w)) /\
  (rows A <> rows B \/ cols A <> cols B ->
     forall R, add A B <> Ok R /\ subtract A B <> Ok R) /\
  (cols A <> rows B ->
     forall R, multiply0 A B <> Ok R).
Proof.
  assert (Hadd : add A B = Throw add_mismatch <->
                 rows A <> rows B \/ cols A <> cols B).
  { rewrite add_eq, <- dims_check_spec.
    destruct (negb (rows A =? rows B) || negb (cols A =? cols B)).
    - split; reflexivity.
    - destruct ((rows A =? 0) || (cols A =? 0)); split; discriminate. }
  assert (Hsub : subtract A B = Throw subtract_mismatch <->
                 rows A <> rows B \/ cols A <> cols B).
  { rewrite subtract_eq, <- dims_check_spec.
    destruct (negb (rows A =? rows B) || negb (cols A =? cols B)).
    - split; reflexivity.
    - destruct ((rows A =? 0) || (cols A =? 0)); split; discriminate. }
  split; [exact Hadd|]. split; [exact Hsub|]. split; [|split].
  - intros W cb w. split; [apply multiply_mismatch_iff|].
    intros Hne. unfold multiply. apply Z.eqb_neq in Hne. rewrite Hne.
    reflexivity.
  - intros Hne R. apply Hadd in Hne as Ha. apply Hsub in Hne as Hs.
    rewrite Ha, Hs. split; discriminate.
  - intros Hne R. unfold multiply0.
    rewrite (proj2 (multiply_mismatch_iff A B None tt) Hne). discriminate.
Qed.

Lemma C3_witness :
  add m23 m32 = Throw add_mismatch /\
  add m23 m32 <> Ok m23 /\ subtract m23 m32 <> Ok m23.
Proof.
  assert (Hne : rows m23 <> rows m32 \/ cols m23 <> cols m32)
    by (left; simpl; lia).
  split.
  - apply (proj1 (C3_dimension_mismatch m23 m32)). exact Hne.
  - apply (proj1 (proj2 (proj2 (proj2 (C3_dimension_mismatch m23 m32))))).
    exact Hne.
Defined.

(** C3 as stated fails: adding a 2x3 and a 3x2 matrix throws a message in
    which neither [2] nor [3] occurs; multiply likewise. *)
Lemma C3_counterexample :
  add m23 m32 = Throw add_mismatch /\
  includes (number_to_string 2) add_mismatch = false /\
  includes (number_to_string 3) add_mismatch = false /\
  multiply0 m23 m23 = Throw multiply_mismatch /\
  includes (number_to_string 2) multiply_mismatch = false /\
  includes (number_to_string 3) multiply_mismatch = false.
Proof. repeat split; vm_compute; reflexivity. Qed.

(** ** multiply *)

(** C1, at the failing input.  [cancelA] is the row (1, -1) and [cancelB]
    the column (1, 1): the product entry is 1*1 + (-1)*1 = 0 and should not
    be stored.  multiply stores 1 at (0,0): when the second addend brings
    the accumulated value to zero, the guard [newValue !== 0] skips
    [setElement] and the first partial sum stays.  The nested-scan multiply
    of the second implementation, which calls [setElement] unguarded,
    returns the empty matrix. *)
Theorem C1_multiply_keeps_cancelled_sum :
  cols cancelA = rows cancelB /\
  multiply0 cancelA cancelB = Ok (mkSparseMatrix 1 1 [((0,0),1)]) /\
  product_entry cancelA cancelB 0 0 = 0 /\
  Dsa.multiply cancelA cancelB = Ok (mkSparseMatrix 1 1 []).
Proof. repeat split; vm_compute; reflexivity. Qed.

(** C7, at the failing input.  With A = [cancelA], B = [cancelB] and
    C = [cancelC] (the column (1, 0)), [A.multiply(B.add(C))] holds 1 at
    (0,0), which is the true value, while [A.multiply(B).add(A.multiply(C))]
    holds 2: [A.multiply(B)] wrongly keeps 1 where the sum cancels. *)
Theorem C7_distributivity_broken_by_cancellation :
  rows cancelB = rows cancelC /\ cols cancelB = cols cancelC /\
  cols cancelA = rows cancelB /\
  add cancelB cancelC = Ok (mkSparseMatrix 2 1 [((0,0),2); ((1,0),1)]) /\
  multiply0 cancelA (mkSparseMatrix 2 1 [((0,0),2); ((1,0),1)]) =
    Ok (mkSparseMatrix 1 1 [((0,0),1)]) /\
  multiply0 cancelA cancelB = Ok (mkSparseMatrix 1 1 [((0,0),1)]) /\
  multiply0 cancelA cancelC = Ok (mkSparseMatrix 1 1 [((0,0),1)]) /\
  add (mkSparseMatrix 1 1 [((0,0),1)]) (mkSparseMatrix 1 1 [((0,0),1)]) =
    Ok (mkSparseMatrix 1 1 [((0,0),2)]) /\
  product_entry cancelA cancelB 0 0 = 0.
Proof. repeat split; vm_compute; reflexivity. Qed.

(** *** The progress callback *)

Lemma multiply_step_eq {W : Type} idx tot (cb : option (callback W))
    row1 col1 value1 col2 res n w :
  multiply_step idx tot cb row1 col1 value1 col2 (res, n, w) =
  (multiply_cell idx row1 col1 value1 col2 res, n + 1, notify cb tot (n + 1) w).
Proof. reflexivity. Qed.

Lemma notify_run_app {W : Type} (cb : option (callback W)) tot n (a b : nat) w :
  notify_run cb tot n (a + b) w =
  notify_run cb tot (n + Z.of_nat a) b (notify_run cb tot n a w).
Proof.
  revert n w. induction a as [|a IH]; intros n w.
  - simpl. rewrite Z.add_0_r. reflexivity.
  - cbn [Nat.add notify_run]. rewrite IH. f_equal. lia.
Qed.

Lemma inner_loop_eq {W : Type} idx tot (cb : option (callback W))
    row1 col1 value1 (l : list Z) res n w :
  fold_left (fun acc i => multiply_step idx tot cb row1 col1 value1 i acc)
    l (res, n, w) =
  (fold_left (fun acc i => multiply_cell idx row1 col1 value1 i acc) l res,
   n + Z.of_nat (List.length l),
   notify_run cb tot n (List.length l) w).
Proof.
  revert res n w. induction l as [|i t IH]; intros res n w.
  - simpl. rewrite Z.add_0_r. reflexivity.
  - cbn [fold_left List.length notify_run]. rewrite multiply_step_eq, IH.
    f_equal. f_equal. lia.
Qed.

Lemma inner_for_loop_eq {W : Type} idx tot (cb : option (callback W))
    row1 col1 value1 (m : Z) res n w :
  for_loop m (multiply_step idx tot cb row1 col1 value1) (res, n, w) =
  (for_loop m (multiply_cell idx row1 col1 value1) res,
   n + Z.of_nat (List.length (upto m)),
   notify_run cb tot n (List.length (upto m)) w).
Proof. unfold for_loop. apply inner_loop_eq. Qed.

Lemma outer_loop_eq {W : Type} (other : SparseMatrix) tot
    (cb : option (callback W)) (es : list (Z * Z * Z)) res n w :
  fold_left (fun st entry =>
    let '((row1, col1), value1) := entry in
    for_loop (cols other)
      (multiply_step (build_column_index other) tot cb row1 col1 value1) st)
    es (res, n, w) =
  (fold_left (fun result entry =>
     let '((row1, col1), value1) := entry in
     for_loop (cols other)
       (multiply_cell (build_column_index other) row1 col1 value1) result)
     es res,
   n + Z.of_nat (List.length es * List.length (upto (cols other))),
   notify_run cb tot n (List.length es * List.length (upto (cols other))) w).
Proof.
  revert res n w. induction es as [|[[row1 col1] value1] t IH]; intros res n w.
  - simpl. rewrite Z.add_0_r. reflexivity.
  - cbn [fold_left List.length Nat.mul].
    rewrite inner_for_loop_eq, IH, notify_run_app.
    f_equal. f_equal. lia.
Qed.

Lemma multiply_eq {W : Type} (this other : SparseMatrix)
    (cb : option (callback W)) (w : W) :
  multiply this other cb w =
  if negb (cols this =? rows other) then (Throw multiply_mismatch, w)
  else if (rows this =? 0) || (cols other =? 0)
  then (Throw (lit "Invalid input"), w)
  else (Ok (multiply_matrix this other
              (mkSparseMatrix (rows this) (cols other) [])),
        notify_run cb (map_size (elements this) * cols other) 0
          (passes this other) w).
Proof.
  unfold multiply, new_SparseMatrix.
  destruct (negb (cols this =? rows other)); [reflexivity|].
  destruct ((rows this =? 0) || (cols other =? 0)); [reflexivity|].
  unfold multiply_loop. rewrite outer_loop_eq. reflexivity.
Qed.








(** ** Numbers as text *)

Lemma uint_chars_digits u : Forall (fun c => is_dec_digit c = true) (uint_chars u).
Proof. induction u; simpl; constructor; auto. Qed.

Lemma parse_digits_uint_Some u rest a :
  parse_digits 10 (uint_chars u ++ rest) (Some a) =
  parse_digits 10 rest (Some (uint_val u a)).
Proof.
  revert a. induction u; intros a; try reflexivity;
    unfold uint_chars in *; cbn [NilEmpty.string_of_uint list_ascii_of_string app];
    cbn [parse_digits]; cbv [digit_value]; simpl; rewrite IHu; reflexivity.
Qed.

Lemma parse_digits_uint_None u rest :
  u <> Nil ->
  parse_digits 10 (uint_chars u ++ rest) None =
  parse_digits 10 rest (Some (uint_val u 0)).
Proof.
  intros Hne. destruct u; [contradiction| | | | | | | | | |];
    unfold uint_chars; cbn [NilEmpty.string_of_uint list_ascii_of_string app];
    cbn [parse_digits]; cbv [digit_value]; simpl;
    apply parse_digits_uint_Some.
Qed.

Lemma uint_val_pos u p : uint_val u (Z.pos p) = Z.pos (Pos.of_uint_acc u p).
Proof.
  revert p. induction u; intros p; cbn [uint_val Pos.of_uint_acc];
    [reflexivity|..];
    match goal with
    | |- uint_val _ ?a = Z.pos (Pos.of_uint_acc _ ?q) =>
        replace a with (Z.pos q) by lia
    end; apply IHu.
Qed.

Lemma uint_val_0 u : uint_val u 0 = Z.of_uint u.
Proof.
  unfold Z.of_uint.
  induction u; cbn [uint_val Pos.of_uint]; try reflexivity;
    try (exact IHu); simpl; rewrite uint_val_pos; reflexivity.
Qed.

Lemma dec_digit_facts c :
  is_dec_digit c = true ->
  is_ws c = false /\ num_char c = true /\
  Ascii.eqb c "-" = false /\ Ascii.eqb c "+" = false /\
  Ascii.eqb c "x" = false /\ Ascii.eqb c "X" = false.
Proof.
  destruct c as [[] [] [] [] [] [] [] []]; vm_compute; intros Hd;
    try discriminate Hd; repeat split.
Qed.

Lemma num_char_facts c :
  num_char c = true ->
  is_ws c = false /\ Ascii.eqb c "," = false /\ Ascii.eqb c "=" = false /\
  Ascii.eqb c nl = false.
Proof.
  destruct c as [[] [] [] [] [] [] [] []]; vm_compute; intros Hd;
    try discriminate Hd; repeat split.
Qed.

Lemma uint_chars_cons u :
  u <> Nil -> exists c t, uint_chars u = c :: t /\ is_dec_digit c = true.
Proof.
  intros Hne. pose proof (uint_chars_digits u) as Hd.
  destruct u; [contradiction|..]; unfold uint_chars in *;
    cbn [NilEmpty.string_of_uint list_ascii_of_string] in *;
    inversion Hd; subst; eexists; eexists; split; try reflexivity; assumption.
Qed.

Lemma parse_magnitude_uint u :
  u <> Nil -> parse_magnitude (uint_chars u) = Some (uint_val u 0).
Proof.
  intros Hne. unfold parse_magnitude.
  assert (Hdig : parse_digits 10 (uint_chars u) None = Some (uint_val u 0)).
  { rewrite <- (app_nil_r (uint_chars u)).
    rewrite parse_digits_uint_None by exact Hne. reflexivity. }
  pose proof (uint_chars_digits u) as Hd.
  destruct (uint_chars u) as [|c0 [|c1 t]]; try exact Hdig.
  inversion Hd as [|? ? _ Hd']; subst. inversion Hd' as [|? ? H1 _]; subst.
  destruct (dec_digit_facts _ H1) as (_ & _ & _ & _ & Hx & HX).
  rewrite Hx, HX, andb_false_r. exact Hdig.
Qed.

(** The shape of an integer written out: an optional minus sign, then a
    non-empty run of decimal digits worth the absolute value. *)
Lemma plain_decimal_shape z :
  exists u, u <> Nil /\ uint_val u 0 = Z.abs z /\
    plain_decimal z = (if z <? 0 then lit "-" else []) ++ uint_chars u.
Proof.
  assert (Hpos : forall p, Pos.to_uint p <> Nil /\
            uint_val (Pos.to_uint p) 0 = Z.pos p /\
            list_ascii_of_string (NilZero.string_of_uint (Pos.to_uint p)) =
            uint_chars (Pos.to_uint p)).
  { intros p. pose proof (DecimalPos.Unsigned.to_uint_nonnil p) as Hn.
    split; [exact Hn|split].
    - rewrite uint_val_0. unfold Z.of_uint.
      rewrite DecimalPos.Unsigned.of_to. reflexivity.
    - unfold uint_chars, NilZero.string_of_uint.
      destruct (Pos.to_uint p); [contradiction|..]; reflexivity. }
  destruct z as [|p|p].
  - exists (D0 Nil). split; [discriminate|split; reflexivity].
  - destruct (Hpos p) as (Hn & Hv & Hs).
    exists (Pos.to_uint p). split; [exact Hn|split; [exact Hv|]].
    unfold plain_decimal. simpl. exact Hs.
  - destruct (Hpos p) as (Hn & Hv & Hs).
    exists (Pos.to_uint p). split; [exact Hn|split; [exact Hv|]].
    unfold plain_decimal. simpl. f_equal. exact Hs.
Qed.

Lemma plain_decimal_chars z :
  Forall (fun c => num_char c = true) (plain_decimal z).
Proof.
  destruct (plain_decimal_shape z) as (u & _ & _ & ->).
  apply Forall_app. split.
  - destruct (z <? 0); repeat constructor.
  - eapply Forall_impl; [|apply uint_chars_digits].
    intros c Hc. apply (dec_digit_facts c Hc).
Qed.

Lemma plain_decimal_nonempty z : plain_decimal z <> [].
Proof.
  destruct (plain_decimal_shape z) as (u & Hne & _ & ->).
  destruct (uint_chars_cons u Hne) as (c & t & -> & _).
  destruct (z <? 0); discriminate.
Qed.

(** The first character of an integer written out is a digit or the minus
    sign. *)
Lemma plain_decimal_head z :
  exists c t, plain_decimal z = c :: t /\
    (is_dec_digit c = true \/ c = "-"%char).
Proof.
  destruct (plain_decimal_shape z) as (u & Hne & _ & ->).
  destruct (uint_chars_cons u Hne) as (c & t & -> & Hc).
  destruct (z <? 0).
  - eexists. eexists. split; [reflexivity|right; reflexivity].
  - exists c, t. split; [reflexivity|left; exact Hc].
Qed.

(** [parseInt] reads back an integer written out. *)
Lemma parseInt_plain_decimal z : parseInt (plain_decimal z) = Some z.
Proof.
  destruct (plain_decimal_shape z) as (u & Hne & Hval & ->).
  pose proof (parse_magnitude_uint u Hne) as Hmag.
  destruct (uint_chars_cons u Hne) as (c & t & Hu & Hc).
  destruct (dec_digit_facts c Hc) as (Hws & _ & Hminus & Hplus & _ & _).
  unfold parseInt. destruct (z <? 0) eqn:Hz.
  - cbn [lit list_ascii_of_string app trimStart]. 
    change (is_ws "-") with false. cbn iota.
    change (Ascii.eqb "-" "-") with true. cbn iota.
    rewrite Hmag, Hval. apply Z.ltb_lt in Hz. f_equal. lia.
  - cbn [app]. rewrite Hu in *. cbn [trimStart]. rewrite Hws, Hminus, Hplus.
    rewrite Hmag, Hval. apply Z.ltb_ge in Hz. f_equal. lia.
Qed.

(** *** Runs of digits *)

Lemma digit_value_dec c :
  is_dec_digit c = true -> exists d, digit_value c = Some d /\ 0 <= d < 10.
Proof.
  destruct c as [[] [] [] [] [] [] [] []]; intros H; vm_compute in H;
    try discriminate H;
    (eexists; split; [vm_compute; reflexivity|lia]).
Qed.

Lemma parse_digits_step c t acc d :
  digit_value c = Some d -> 0 <= d < 10 ->
  parse_digits 10 (c :: t) acc =
  parse_digits 10 t
    (Some (match acc with Some a => a * 10 + d | None => d end)).
Proof.
  intros Hd Hr. cbn [parse_digits]. rewrite Hd.
  replace (d <? 10) with true by (symmetry; apply Z.ltb_lt; lia).
  reflexivity.
Qed.

Lemma parse_digits_acc ds a :
  Forall (fun c => is_dec_digit c = true) ds ->
  parse_digits 10 ds (Some a) =
  Some (a * 10 ^ Z.of_nat (List.length ds) + digits_value ds).
Proof.
  intros Hds. revert a. induction Hds as [|c t Hc Ht IH]; intros a.
  - cbn. f_equal. lia.
  - destruct (digit_value_dec c Hc) as (d & Hd & Hr).
    rewrite (parse_digits_step c t (Some a) d Hd Hr), IH.
    unfold digits_value at 2.
    rewrite (parse_digits_step c t None d Hd Hr), IH.
    cbn [List.length]. rewrite Nat2Z.inj_succ, Z.pow_succ_r by lia.
    f_equal. ring.
Qed.

Lemma parse_digits_None ds :
  Forall (fun c => is_dec_digit c = true) ds -> ds <> [] ->
  parse_digits 10 ds None = Some (digits_value ds).
Proof.
  intros Hds Hne. destruct Hds as [|c t Hc Ht]; [contradiction|].
  destruct (digit_value_dec c Hc) as (d & Hd & Hr).
  unfold digits_value.
  rewrite (parse_digits_step c t None d Hd Hr), (parse_digits_acc t d Ht).
  reflexivity.
Qed.

Lemma parse_digits_app ds rest acc :
  Forall (fun c => is_dec_digit c = true) ds ->
  parse_digits 10 (ds ++ rest) acc =
  parse_digits 10 rest (parse_digits 10 ds acc).
Proof.
  intros Hds. revert acc. induction Hds as [|c t Hc Ht IH]; intros acc.
  - reflexivity.
  - destruct (digit_value_dec c Hc) as (d & Hd & Hr). cbn [app].
    rewrite !(parse_digits_step c _ acc d Hd Hr). apply IH.
Qed.

Lemma digits_value_app ds1 ds2 :
  Forall (fun c => is_dec_digit c = true) ds1 ->
  Forall (fun c => is_dec_digit c = true) ds2 ->
  digits_value (ds1 ++ ds2) =
  digits_value ds1 * 10 ^ Z.of_nat (List.length ds2) + digits_value ds2.
Proof.
  intros H1 H2. destruct ds1 as [|c t].
  - cbn [app]. change (digits_value []) with 0. lia.
  - unfold digits_value at 1.
    rewrite (parse_digits_app _ _ None H1).
    rewrite (parse_digits_None _ H1) by discriminate.
    rewrite (parse_digits_acc _ _ H2). reflexivity.
Qed.

Lemma digits_zeros j : Forall (fun c => is_dec_digit c = true) (repeat "0"%char j).
Proof. induction j; simpl; constructor; auto. Qed.

Lemma digits_value_zeros j : digits_value (repeat "0"%char j) = 0.
Proof.
  induction j as [|j IH]; [reflexivity|].
  change (repeat "0"%char (S j)) with (["0"%char] ++ repeat "0"%char j).
  rewrite digits_value_app by (first [apply digits_zeros|repeat constructor]).
  rewrite IH. reflexivity.
Qed.

Lemma digits_value_shift ds j :
  Forall (fun c => is_dec_digit c = true) ds ->
  digits_value (ds ++ repeat "0"%char j) = digits_value ds * 10 ^ Z.of_nat j.
Proof.
  intros Hds. rewrite digits_value_app by (first [assumption|apply digits_zeros]).
  rewrite digits_value_zeros, repeat_length. lia.
Qed.

(** A non-negative integer written out is a non-empty run of digits worth
    the integer. *)
Lemma plain_decimal_digits z :
  0 <= z ->
  Forall (fun c => is_dec_digit c = true) (plain_decimal z) /\
  plain_decimal z <> [] /\ digits_value (plain_decimal z) = z.
Proof.
  intros Hz. pose proof (plain_decimal_nonempty z) as Hne.
  destruct (plain_decimal_shape z) as (u & Hu & Hval & Heq).
  replace (z <? 0) with false in Heq by (symmetry; apply Z.ltb_ge; lia).
  cbn [app] in Heq. rewrite Heq in *.
  split; [apply uint_chars_digits|split; [exact Hne|]].
  unfold digits_value. rewrite <- (app_nil_r (uint_chars u)).
  rewrite parse_digits_uint_None by exact Hu. cbn [parse_digits]. lia.
Qed.

Lemma drop_zeros_spec l : exists j, l = repeat "0"%char j ++ drop_zeros l.
Proof.
  induction l as [|c t [j IH]].
  - exists 0%nat. reflexivity.
  - cbn [drop_zeros]. destruct (Ascii.eqb c "0") eqn:E.
    + apply Ascii.eqb_eq in E. subst c. exists (S j).
      cbn [repeat app]. rewrite <- IH. reflexivity.
    + exists 0%nat. reflexivity.
Qed.

Lemma rev_repeat {A : Type} (x : A) n : rev (repeat x n) = repeat x n.
Proof.
  induction n as [|n IH]; [reflexivity|].
  cbn [repeat rev]. rewrite IH. symmetry. apply repeat_cons.
Qed.

(** Dropping the final zeros of a text leaves the text without them. *)
Lemma strip_zeros digits :
  exists j, digits = rev (drop_zeros (rev digits)) ++ repeat "0"%char j.
Proof.
  destruct (drop_zeros_spec (rev digits)) as [j Hj]. exists j.
  rewrite <- (rev_involutive digits) at 1. rewrite Hj at 1.
  rewrite rev_app_distr, rev_repeat. reflexivity.
Qed.

(** *** Exponent notation *)

(** The shape of a number in exponent notation: the sign, the first digit,
    the further significant digits after a point, and the exponent; the
    digits of the number are the significant ones followed by zeros. *)
Lemma exponent_notation_shape z :
  z <> 0 ->
  exists d more j,
    is_dec_digit d = true /\
    Forall (fun c => is_dec_digit c = true) more /\
    digits_value (d :: more) * 10 ^ Z.of_nat j = Z.abs z /\
    exponent_notation z =
      (if z <? 0 then lit "-" else []) ++
      (d :: match more with [] => [] | _ :: _ => "."%char :: more end) ++
      lit "e+" ++ plain_decimal (Z.of_nat (List.length more + j)).
Proof.
  intros Hz.
  destruct (plain_decimal_digits (Z.abs z)) as (Hds & Hne & Hval); [lia|].
  destruct (strip_zeros (plain_decimal (Z.abs z))) as [j Hj].
  unfold exponent_notation. cbv zeta.
  set (digits := plain_decimal (Z.abs z)) in *.
  destruct (rev (drop_zeros (rev digits))) as [|d more] eqn:Hs.
  { exfalso. cbn [app] in Hj. rewrite Hj, digits_value_zeros in Hval. lia. }
  rewrite Hj in Hds. apply Forall_app in Hds. destruct Hds as [Hs' _].
  inversion Hs' as [|? ? Hd Hmore]; subst.
  exists d, more, j. split; [exact Hd|split; [exact Hmore|split]].
  - rewrite <- Hval, Hj. symmetry. apply digits_value_shift. exact Hs'.
  - rewrite Hj at 1. rewrite length_app, repeat_length. cbn [List.length].
    replace (Z.of_nat (S (List.length more) + j) - 1)
      with (Z.of_nat (List.length more + j)) by lia.
    destruct more; reflexivity.
Qed.

Lemma exponent_notation_chars z :
  z <> 0 -> Forall (fun c => num_char c = true) (exponent_notation z).
Proof.
  intros Hz.
  destruct (exponent_notation_shape z Hz) as (d & more & j & Hd & Hm & _ & ->).
  assert (Hnum : forall l, Forall (fun c => is_dec_digit c = true) l ->
                 Forall (fun c => num_char c = true) l).
  { intros l Hl. eapply Forall_impl; [|exact Hl].
    intros c Hc. apply (dec_digit_facts c Hc). }
  repeat (apply Forall_app; split).
  - destruct (z <? 0); repeat constructor.
  - constructor; [apply (dec_digit_facts d Hd)|].
    destruct more; [constructor|]. constructor; [reflexivity|].
    apply Hnum. exact Hm.
  - repeat constructor.
  - apply plain_decimal_chars.
Qed.

(** *** The template literal *)

Lemma number_to_string_plain z :
  Z.abs z < 10 ^ 21 -> number_to_string z = plain_decimal z.
Proof.
  intros Hz. unfold number_to_string.
  replace (Z.abs z <? 10 ^ 21) with true by (symmetry; apply Z.ltb_lt; exact Hz).
  reflexivity.
Qed.

Lemma number_to_string_exponent z :
  10 ^ 21 <= Z.abs z -> number_to_string z = exponent_notation z /\ z <> 0.
Proof.
  intros Hz. unfold number_to_string.
  replace (Z.abs z <? 10 ^ 21) with false
    by (symmetry; apply Z.ltb_ge; exact Hz).
  split; [reflexivity|]. intros ->. cbn in Hz. lia.
Qed.

Lemma number_to_string_cases z :
  (Z.abs z < 10 ^ 21 /\ number_to_string z = plain_decimal z) \/
  (10 ^ 21 <= Z.abs z /\ z <> 0 /\ number_to_string z = exponent_notation z).
Proof.
  destruct (Z.lt_ge_cases (Z.abs z) (10 ^ 21)) as [H|H].
  - left. split; [exact H|apply number_to_string_plain; exact H].
  - right. destruct (number_to_string_exponent z H) as [He Hz]. auto.
Qed.

Lemma number_to_string_chars z :
  Forall (fun c => num_char c = true) (number_to_string z).
Proof.
  destruct (number_to_string_cases z) as [[_ ->]|(_ & Hz & ->)].
  - apply plain_decimal_chars.
  - apply exponent_notation_chars. exact Hz.
Qed.

Lemma number_to_string_head z :
  exists c t, number_to_string z = c :: t /\
    (is_dec_digit c = true \/ c = "-"%char).
Proof.
  destruct (number_to_string_cases z) as [[_ ->]|(_ & Hz & ->)].
  - apply plain_decimal_head.
  - destruct (exponent_notation_shape z Hz) as (d & more & j & Hd & _ & _ & ->).
    destruct (z <? 0).
    + eexists. eexists. split; [reflexivity|right; reflexivity].
    + eexists. eexists. split; [reflexivity|left; exact Hd].
Qed.

Lemma number_to_string_nonempty z : number_to_string z <> [].
Proof.
  destruct (number_to_string_head z) as (c & t & -> & _). discriminate.
Qed.

(** Below 10^21 [parseInt] reads back what the template literal printed. *)
Lemma parseInt_number_to_string z :
  Z.abs z < 10 ^ 21 -> parseInt (number_to_string z) = Some z.
Proof.
  intros Hz. rewrite number_to_string_plain by exact Hz.
  apply parseInt_plain_decimal.
Qed.

(** From 10^21 on it reads the first digit only. *)
Lemma parseInt_exponent_notation z :
  z <> 0 ->
  exists r, parseInt (exponent_notation z) = Some r /\ Z.abs r < 10.
Proof.
  intros Hz.
  destruct (exponent_notation_shape z Hz) as (d & more & j & Hd & _ & _ & ->).
  destruct (digit_value_dec d Hd) as (v & Hv & Hr).
  destruct (dec_digit_facts d Hd) as (Hws & _ & Hminus & Hplus & _ & _).
  assert (Hmag : forall rest,
    parse_magnitude
      ((d :: match more with [] => [] | _ :: _ => "."%char :: more end) ++
       lit "e+" ++ rest) = Some v).
  { intros rest. unfold parse_magnitude. destruct more as [|c more'].
    - cbn [app lit list_ascii_of_string].
      change (Ascii.eqb "e" "x" || Ascii.eqb "e" "X") with false.
      rewrite andb_false_r.
      rewrite (parse_digits_step d _ None v Hv Hr). reflexivity.
    - cbn [app].
      change (Ascii.eqb "." "x" || Ascii.eqb "." "X") with false.
      rewrite andb_false_r.
      rewrite (parse_digits_step d _ None v Hv Hr). reflexivity. }
  pose proof (Hmag (plain_decimal (Z.of_nat (List.length more + j)))) as Hm.
  clear Hmag.
  set (body := (d :: match more with [] => [] | _ :: _ => "."%char :: more end)
               ++ lit "e+" ++ plain_decimal (Z.of_nat (List.length more + j)))
    in *.
  assert (Hb : exists rest, body = d :: rest) by (eexists; reflexivity).
  destruct Hb as [rest Hb].
  unfold parseInt. destruct (z <? 0).
  - change (lit "-" ++ body) with ("-"%char :: body). cbn [trimStart].
    change (is_ws "-") with false. cbn iota.
    change (Ascii.eqb "-" "-") with true. cbn iota.
    rewrite Hm. exists (-1 * v). split; [reflexivity|lia].
  - change ([] ++ body) with body. rewrite Hb. cbn [trimStart].
    rewrite Hws, Hminus, Hplus, <- Hb, Hm.
    exists (1 * v). split; [reflexivity|lia].
Qed.

(** What [parseInt] reads from a printed number prints and reads back as
    itself. *)
Lemma parseInt_number_to_string_stable z :
  exists r, parseInt (number_to_string z) = Some r /\ Z.abs r < 10 ^ 21 /\
            (Z.abs z < 10 ^ 21 -> r = z).
Proof.
  destruct (number_to_string_cases z) as [[Hp ->]|(Hp & Hz & ->)].
  - exists z. split; [apply parseInt_plain_decimal|split; [exact Hp|auto]].
  - destruct (parseInt_exponent_notation z Hz) as (r & Hr & Hb).
    exists r. split; [exact Hr|split; [|lia]].
    assert (10 < 10 ^ 21) by (vm_compute; reflexivity). lia.
Qed.

(** *** Number *)

Lemma span_digits_app ds rest :
  Forall (fun c => is_dec_digit c = true) ds ->
  match rest with [] => True | c :: _ => is_dec_digit c = false end ->
  span_digits (ds ++ rest) = (ds, rest).
Proof.
  intros Hds Hrest. induction Hds as [|c t Hc Ht IH].
  - destruct rest as [|c t]; [reflexivity|]. cbn [app span_digits].
    rewrite Hrest. reflexivity.
  - cbn [app span_digits]. rewrite Hc, IH. reflexivity.
Qed.

Lemma forallb_digits ds :
  Forall (fun c => is_dec_digit c = true) ds -> forallb is_dec_digit ds = true.
Proof.
  intros Hds. apply forallb_forall. rewrite Forall_forall in Hds. exact Hds.
Qed.

Lemma unsigned_numeral_digits ds :
  Forall (fun c => is_dec_digit c = true) ds -> ds <> [] ->
  unsigned_numeral ds = Some (digits_value ds).
Proof.
  intros Hds Hne. unfold unsigned_numeral.
  rewrite <- (app_nil_r ds) at 1.
  rewrite span_digits_app by (first [exact Hds|exact I]).
  cbv zeta. rewrite app_nil_r. destruct ds as [|c t]; [contradiction|].
  cbn [exponent_part List.length].
  change (0 <=? 0 - Z.of_nat 0) with true. cbn iota.
  change (0 - Z.of_nat 0) with 0. rewrite Z.pow_0_r. f_equal. lia.
Qed.

(** A numeral in exponent notation. *)
Lemma unsigned_numeral_exponent d more ex :
  is_dec_digit d = true ->
  Forall (fun c => is_dec_digit c = true) more ->
  Forall (fun c => is_dec_digit c = true) ex -> ex <> [] ->
  Z.of_nat (List.length more) <= digits_value ex ->
  unsigned_numeral
    ((d :: match more with [] => [] | _ :: _ => "."%char :: more end) ++
     lit "e+" ++ ex) =
  Some (digits_value (d :: more) *
        10 ^ (digits_value ex - Z.of_nat (List.length more))).
Proof.
  intros Hd Hmore Hex Hne Hle.
  assert (Hexp : exponent_part (lit "e+" ++ ex) = Some (digits_value ex)).
  { cbn [lit list_ascii_of_string app exponent_part].
    change (Ascii.eqb "e" "e" || Ascii.eqb "e" "E") with true. cbn iota.
    change (Ascii.eqb "+" "-") with false. cbn iota.
    change (Ascii.eqb "+" "+") with true. cbn iota.
    destruct ex as [|c t]; [contradiction|].
    rewrite (forallb_digits _ Hex). f_equal. lia. }
  assert (Hstop : match lit "e+" ++ ex with
                  | [] => True
                  | c :: _ => is_dec_digit c = false
                  end) by reflexivity.
  unfold unsigned_numeral. cbn [app span_digits]. rewrite Hd.
  destruct more as [|c more'].
  - cbn [app span_digits lit list_ascii_of_string].
    change (is_dec_digit "e") with false. cbn iota.
    change (Ascii.eqb "e" ".") with false. cbn iota.
    change ("e"%char :: "+"%char :: ex) with (lit "e+" ++ ex).
    rewrite Hexp. cbn [app List.length].
    replace (0 <=? digits_value ex - Z.of_nat 0) with true
      by (symmetry; apply Z.leb_le; cbn in Hle; lia).
    reflexivity.
  - cbn [app span_digits].
    change (is_dec_digit ".") with false. cbn iota.
    change (Ascii.eqb "." ".") with true. cbn iota.
    change (c :: more' ++ lit "e+" ++ ex) with ((c :: more') ++ lit "e+" ++ ex).
    rewrite (span_digits_app (c :: more') (lit "e+" ++ ex) Hmore Hstop), Hexp.
    cbn [app].
    replace (0 <=? digits_value ex - Z.of_nat (List.length (c :: more')))
      with true by (symmetry; apply Z.leb_le; lia).
    reflexivity.
Qed.

Lemma to_Number_signed (neg : bool) c t n :
  is_dec_digit c = true ->
  unsigned_numeral (c :: t) = Some n ->
  to_Number ((if neg then lit "-" else []) ++ c :: t) =
  Some ((if neg then -1 else 1) * n).
Proof.
  intros Hc Hn. destruct (dec_digit_facts c Hc) as (_ & _ & Hminus & _).
  unfold to_Number. destruct neg.
  - cbn [lit list_ascii_of_string app].
    change (Ascii.eqb "-" "-") with true. cbn iota. rewrite Hn. reflexivity.
  - cbn [app]. rewrite Hminus, Hn. reflexivity.
Qed.

(** [Number] reads an integer written out. *)
Lemma to_Number_plain_decimal z : to_Number (plain_decimal z) = Some z.
Proof.
  destruct (plain_decimal_shape z) as (u & Hne & Hval & ->).
  assert (Hvalue : digits_value (uint_chars u) = Z.abs z).
  { unfold digits_value. rewrite <- (app_nil_r (uint_chars u)).
    rewrite parse_digits_uint_None by exact Hne. cbn [parse_digits]. exact Hval. }
  pose proof (unsigned_numeral_digits (uint_chars u) (uint_chars_digits u))
    as Hnum.
  destruct (uint_chars_cons u Hne) as (c & t & Hu & Hc).
  rewrite Hu in *. rewrite (to_Number_signed (z <? 0) c t _ Hc (Hnum ltac:(discriminate))).
  rewrite Hvalue. f_equal. destruct (z <? 0) eqn:Hz.
  - apply Z.ltb_lt in Hz. lia.
  - apply Z.ltb_ge in Hz. lia.
Qed.

(** [Number] reads a number in exponent notation. *)
Lemma to_Number_exponent_notation z :
  z <> 0 -> to_Number (exponent_notation z) = Some z.
Proof.
  intros Hz.
  destruct (exponent_notation_shape z Hz)
    as (d & more & j & Hd & Hmore & Hval & ->).
  destruct (plain_decimal_digits (Z.of_nat (List.length more + j)))
    as (Hex & Hne & Hev); [lia|].
  pose proof (unsigned_numeral_exponent d more _ Hd Hmore Hex Hne) as Hnum.
  rewrite Hev in Hnum. specialize (Hnum ltac:(lia)).
  replace (Z.of_nat (List.length more + j) - Z.of_nat (List.length more))
    with (Z.of_nat j) in Hnum by lia.
  rewrite Hval in Hnum.
  change ((d :: match more with [] => [] | _ :: _ => "."%char :: more end) ++
          lit "e+" ++ plain_decimal (Z.of_nat (List.length more + j)))
    with (d :: (match more with [] => [] | _ :: _ => "."%char :: more end ++
          lit "e+" ++ plain_decimal (Z.of_nat (List.length more + j))))
    in *.
  rewrite (to_Number_signed (z <? 0) d _ _ Hd Hnum).
  f_equal. destruct (z <? 0) eqn:Hneg.
  - apply Z.ltb_lt in Hneg. lia.
  - apply Z.ltb_ge in Hneg. lia.
Qed.

(** [Number] reads back what the template literal printed. *)
Lemma to_Number_number_to_string z : to_Number (number_to_string z) = Some z.
Proof.
  destruct (number_to_string_cases z) as [[_ ->]|(_ & Hz & ->)].
  - apply to_Number_plain_decimal.
  - apply to_Number_exponent_notation. exact Hz.
Qed.

(** ** String methods *)

Lemma split_no_char sep s : no_char sep s -> split sep s = [s].
Proof.
  induction s as [|c t IH]; intros Hno; [reflexivity|].
  inversion Hno as [|? ? Hc Ht]; subst. simpl. rewrite Hc, (IH Ht). reflexivity.
Qed.

Lemma split_app_sep sep a rest :
  no_char sep a -> split sep (a ++ sep :: rest) = a :: split sep rest.
Proof.
  induction a as [|c t IH]; intros Hno; simpl.
  - rewrite Ascii.eqb_refl. reflexivity.
  - inversion Hno as [|? ? Hc Ht]; subst. rewrite Hc, (IH Ht). reflexivity.
Qed.

Lemma no_char_app sep a b : no_char sep a -> no_char sep b -> no_char sep (a ++ b).
Proof. intros Ha Hb. apply Forall_app. split; assumption. Qed.

Lemma split_lines {A : Type} sep (f : A -> jsstring) (es : list A) a :
  no_char sep a -> (forall e, no_char sep (f e)) ->
  split sep (a ++ concat (map (fun e => sep :: f e) es)) = a :: map f es.
Proof.
  intros Ha Hf. revert a Ha. induction es as [|e t IH]; intros a Ha; simpl.
  - rewrite app_nil_r. apply split_no_char. exact Ha.
  - rewrite split_app_sep by exact Ha.
    rewrite IH by apply Hf. reflexivity.
Qed.

Lemma trimStart_nonws c t : is_ws c = false -> trimStart (c :: t) = c :: t.
Proof. intros Hc. simpl. rewrite Hc. reflexivity. Qed.

Lemma trimEnd_ends_nonws s : ends_nonws s -> trimEnd s = s.
Proof.
  intros (s' & c & -> & Hc). unfold trimEnd.
  rewrite rev_app_distr. simpl. rewrite Hc. simpl.
  rewrite rev_involutive. reflexivity.
Qed.

Lemma trimEnd_snoc_ws s c : is_ws c = true -> trimEnd (s ++ [c]) = trimEnd s.
Proof.
  intros Hc. unfold trimEnd. rewrite rev_app_distr. simpl. rewrite Hc.
  reflexivity.
Qed.

Lemma ends_nonws_app a b : ends_nonws b -> ends_nonws (a ++ b).
Proof.
  intros (s' & c & -> & Hc). exists (a ++ s'), c.
  rewrite app_assoc. split; [reflexivity|exact Hc].
Qed.

Lemma split_lines_then {A : Type} sep (f : A -> jsstring) (es : list A) a rest :
  no_char sep a -> (forall e, no_char sep (f e)) ->
  split sep (a ++ concat (map (fun e => sep :: f e) es) ++ sep :: rest) =
  (a :: map f es) ++ split sep rest.
Proof.
  intros Ha Hf. revert a Ha. induction es as [|e t IH]; intros a Ha.
  - cbn [map concat app]. apply split_app_sep. exact Ha.
  - cbn [map concat]. rewrite <- !app_assoc. cbn [app].
    rewrite split_app_sep by exact Ha.
    rewrite IH by apply Hf. reflexivity.
Qed.

Lemma startsWith_app p s : startsWith p (p ++ s) = true.
Proof.
  induction p as [|c t IH]; simpl; [reflexivity|].
  rewrite Ascii.eqb_refl, IH. reflexivity.
Qed.

Lemma slice_inner c mid d : slice (c :: mid ++ [d]) 1 (-1) = mid.
Proof.
  unfold slice. cbn [List.length]. rewrite length_app. cbn [List.length].
  change (1 <? 0) with false. change (-1 <? 0) with true. cbn iota.
  set (len := Z.of_nat (S (List.length mid + 1))).
  assert (Hlen : len = Z.of_nat (List.length mid) + 2) by (unfold len; lia).
  replace (Z.min 1 len) with 1 by lia.
  replace (Z.max (len + -1) 0 - 1) with (Z.of_nat (List.length mid)) by lia.
  change (Z.to_nat 1) with 1%nat. cbn [skipn].
  rewrite Nat2Z.id, firstn_app, Nat.sub_diag, firstn_all. simpl.
  apply app_nil_r.
Qed.


Lemma lines_shift {A : Type} (f : A -> jsstring) (es : list A) a :
  a ++ [nl] ++ concat (map (fun e => f e ++ [nl]) es) =
  (a ++ concat (map (fun e => nl :: f e) es)) ++ [nl].
Proof.
  revert a. induction es as [|e t IH]; intros a; simpl.
  - rewrite app_nil_r. reflexivity.
  - specialize (IH (a ++ nl :: f e)).
    repeat (rewrite <- app_assoc in IH; simpl in IH).
    repeat (rewrite <- app_assoc; simpl).
    exact IH.
Qed.

(** ** The text of a matrix

    The lemmas of this section hold for every way [pr] of writing numbers
    in the characters of numbers: the digits written out, and the template
    literal. *)

Section Rendering.

Variable pr : Z -> jsstring.
Hypothesis pr_chars : forall z, Forall (fun c => num_char c = true) (pr z).
Hypothesis pr_nonempty : forall z, pr z <> [].

Lemma no_char_rendered sep z : num_char sep = false -> no_char sep (pr z).
Proof.
  intros Hsep. eapply Forall_impl; [|apply pr_chars].
  intros c Hc. destruct (Ascii.eqb c sep) eqn:E; [|reflexivity].
  apply Ascii.eqb_eq in E. subst c. congruence.
Qed.

Lemma ends_nonws_rendered z : ends_nonws (pr z).
Proof.
  pose proof (pr_chars z) as Hch. pose proof (pr_nonempty z) as Hne.
  destruct (exists_last Hne) as (s' & c & Heq). rewrite Heq in *.
  exists s', c. split; [reflexivity|].
  apply Forall_app in Hch. destruct Hch as [_ Hc].
  inversion Hc; subst. apply num_char_facts. assumption.
Qed.

Lemma starts_nonws_rendered z : exists c t, pr z = c :: t /\ is_ws c = false.
Proof.
  pose proof (pr_chars z) as Hch. pose proof (pr_nonempty z) as Hne.
  destruct (pr z) as [|c t]; [contradiction|].
  exists c, t. split; [reflexivity|].
  inversion Hch; subst. apply num_char_facts. assumption.
Qed.

Lemma trim_rendered z : trim (pr z) = pr z.
Proof.
  unfold trim. destruct (starts_nonws_rendered z) as (c & t & Heq & Hc).
  rewrite Heq, (trimStart_nonws _ _ Hc), <- Heq.
  apply trimEnd_ends_nonws. apply ends_nonws_rendered.
Qed.

Lemma trim_space_rendered z : trim (" "%char :: pr z) = pr z.
Proof.
  unfold trim. cbn [trimStart]. change (is_ws " ") with true. cbn iota.
  apply trim_rendered.
Qed.

Lemma no_char_lit_rendered sep (l : string) z :
  no_char sep (lit l) -> num_char sep = false -> no_char sep (lit l ++ pr z).
Proof.
  intros Hl Hsep. apply no_char_app; [exact Hl|].
  apply no_char_rendered. exact Hsep.
Qed.

(** *** Entry lines *)

Lemma entry_text_with_shape r c v :
  entry_text_with pr r c v =
  "("%char :: (pr r ++ ","%char :: (" "%char :: pr c) ++ ","%char ::
               (" "%char :: pr v)) ++ [")"%char].
Proof.
  unfold entry_text_with. simpl. repeat (rewrite <- app_assoc; simpl).
  reflexivity.
Qed.

Lemma ends_nonws_entry_text_with r c v : ends_nonws (entry_text_with pr r c v).
Proof.
  unfold entry_text_with. rewrite !app_assoc. apply ends_nonws_app.
  exists [], ")"%char. split; reflexivity.
Qed.

Lemma no_nl_entry_text_with r c v : no_char nl (entry_text_with pr r c v).
Proof.
  unfold entry_text_with.
  repeat (apply no_char_app; [first [apply no_char_rendered; reflexivity
                                    |repeat constructor]|]).
  repeat constructor.
Qed.

Lemma trim_entry_text_with r c v :
  trim (entry_text_with pr r c v) = entry_text_with pr r c v.
Proof.
  unfold trim.
  assert (Hs : trimStart (entry_text_with pr r c v) = entry_text_with pr r c v)
    by reflexivity.
  rewrite Hs. apply trimEnd_ends_nonws. apply ends_nonws_entry_text_with.
Qed.

(** The fields between the parentheses, as [split(",")] finds them. *)
Lemma entry_text_with_fields r c v :
  split ","%char (slice (entry_text_with pr r c v) 1 (-1)) =
  [pr r; " "%char :: pr c; " "%char :: pr v].
Proof.
  rewrite entry_text_with_shape, slice_inner.
  rewrite split_app_sep by (apply no_char_rendered; reflexivity).
  rewrite split_app_sep
    by (constructor; [reflexivity|apply no_char_rendered; reflexivity]).
  rewrite split_no_char
    by (constructor; [reflexivity|apply no_char_rendered; reflexivity]).
  reflexivity.
Qed.

(** [parse_element] hands the three fields to [parseInt]. *)
Lemma parse_element_entry_text_with r c v :
  parse_element (entry_text_with pr r c v) =
  match parseInt (pr r), parseInt (pr c), parseInt (pr v) with
  | Some row, Some col, Some value => Ok (row, col, value)
  | _, _, _ => Throw (lit "Invalid numbers in element")
  end.
Proof.
  unfold parse_element.
  assert (Hstart : startsWith (lit "(") (entry_text_with pr r c v) = true).
  { rewrite entry_text_with_shape. reflexivity. }
  assert (Hend : endsWith (lit ")") (entry_text_with pr r c v) = true).
  { unfold endsWith. rewrite entry_text_with_shape.
    cbn [rev]. rewrite rev_app_distr. reflexivity. }
  rewrite Hstart, Hend. cbn [andb]. rewrite entry_text_with_fields.
  cbn [map]. rewrite trim_rendered, !trim_space_rendered. reflexivity.
Qed.

(** [load_entry] of [main.js] hands them to [Number]. *)
Lemma load_entry_entry_text_with r c v :
  DsaFile.load_entry (entry_text_with pr r c v) =
  match DsaFile.Number_of (pr r), DsaFile.Number_of (pr c),
        DsaFile.Number_of (pr v) with
  | Some row, Some col, Some value => Some (row, col, value)
  | _, _, _ => None
  end.
Proof.
  unfold DsaFile.load_entry. rewrite entry_text_with_fields. cbn [map].
  assert (Hsp : forall z, DsaFile.Number_of (" "%char :: pr z) =
                          DsaFile.Number_of (pr z)).
  { intros z. unfold DsaFile.Number_of.
    rewrite trim_space_rendered, trim_rendered. reflexivity. }
  rewrite !Hsp.
  destruct (DsaFile.Number_of (pr r)), (DsaFile.Number_of (pr c)),
    (DsaFile.Number_of (pr v)); reflexivity.
Qed.

(** *** The whole text *)

Lemma no_nl_row_line_with r : no_char nl (row_line_with pr r).
Proof. apply no_char_lit_rendered; [repeat constructor|reflexivity]. Qed.

Lemma no_nl_col_line_with c : no_char nl (col_line_with pr c).
Proof. apply no_char_lit_rendered; [repeat constructor|reflexivity]. Qed.

Lemma no_nl_entry_of_text_with e : no_char nl (entry_of_text_with pr e).
Proof. apply no_nl_entry_text_with. Qed.

Lemma split_text_with r c es :
  split nl (text_with pr r c es) =
  row_line_with pr r :: col_line_with pr c :: map (entry_of_text_with pr) es.
Proof.
  unfold text_with.
  rewrite split_app_sep by apply no_nl_row_line_with.
  rewrite (split_lines nl (entry_of_text_with pr))
    by (first [apply no_nl_col_line_with|apply no_nl_entry_of_text_with]).
  reflexivity.
Qed.

Lemma split_text_with_then r c es rest :
  split nl (text_with pr r c es ++ nl :: rest) =
  row_line_with pr r :: col_line_with pr c ::
  map (entry_of_text_with pr) es ++ split nl rest.
Proof.
  unfold text_with. rewrite <- app_assoc. cbn [app].
  rewrite split_app_sep by apply no_nl_row_line_with.
  rewrite <- app_assoc.
  rewrite (split_lines_then nl (entry_of_text_with pr))
    by (first [apply no_nl_col_line_with|apply no_nl_entry_of_text_with]).
  reflexivity.
Qed.

Lemma ends_nonws_lines_with (es : list (Z * Z * Z)) :
  es <> [] ->
  ends_nonws (concat (map (fun e => nl :: entry_of_text_with pr e) es)).
Proof.
  induction es as [|e t IH]; intros Hne; [contradiction|].
  cbn [map concat]. destruct t as [|e' t'].
  - simpl. rewrite app_nil_r. apply (ends_nonws_app [nl]).
    apply ends_nonws_entry_text_with.
  - apply ends_nonws_app. apply IH. discriminate.
Qed.

Lemma ends_nonws_text_with r c es : ends_nonws (text_with pr r c es).
Proof.
  unfold text_with. apply ends_nonws_app. apply (ends_nonws_app [nl]).
  destruct es as [|e t].
  - cbn [map concat]. rewrite app_nil_r. unfold col_line_with.
    apply ends_nonws_app. apply ends_nonws_rendered.
  - apply ends_nonws_app. apply ends_nonws_lines_with. discriminate.
Qed.

(** The loop of [toString] and of [saveResult]: one line, with its line
    break, per entry. *)
Lemma fold_entry_lines (es : jsmap (Z * Z) Z) init :
  fold_left (fun result entry =>
    let '((row, col), value) := entry in
    result ++ (entry_text_with pr row col value ++ [nl])) es init =
  init ++ concat (map (fun e => entry_of_text_with pr e ++ [nl]) es).
Proof.
  revert init. induction es as [|[[r c] v] t IH]; intros init;
    cbn [fold_left map concat].
  - rewrite app_nil_r. reflexivity.
  - rewrite IH, <- app_assoc. reflexivity.
Qed.

Lemma text_with_break r c (es : list (Z * Z * Z)) :
  (lit "rows=" ++ pr r ++ [nl] ++ lit "cols=" ++ pr c ++ [nl]) ++
  concat (map (fun e => entry_of_text_with pr e ++ [nl]) es) =
  text_with pr r c es ++ [nl].
Proof.
  unfold text_with.
  pose proof (lines_shift (entry_of_text_with pr) es (col_line_with pr c))
    as Hs.
  unfold row_line_with, col_line_with in *.
  repeat (rewrite <- app_assoc; simpl).
  repeat (rewrite <- app_assoc in Hs; simpl in Hs).
  do 5 f_equal. rewrite <- Hs. reflexivity.
Qed.

Lemma trim_text_with_break r c es :
  trim (text_with pr r c es ++ [nl]) = text_with pr r c es.
Proof.
  unfold trim.
  assert (Hstart : forall t, trimStart (text_with pr r c es ++ t) =
                             text_with pr r c es ++ t) by reflexivity.
  rewrite Hstart, trimEnd_snoc_ws by reflexivity.
  apply trimEnd_ends_nonws. apply ends_nonws_text_with.
Qed.

(** *** Reading the text back *)

(** The header value is what [parseInt] makes of the printed number. *)
Lemma header_value_row_with r :
  header_value (row_line_with pr r) = parseInt (pr r).
Proof.
  unfold header_value, row_line_with.
  change (lit "rows=" ++ pr r) with (lit "rows" ++ "="%char :: pr r).
  rewrite split_app_sep by (repeat constructor).
  rewrite split_no_char by (apply no_char_rendered; reflexivity).
  reflexivity.
Qed.

Lemma header_value_col_with c :
  header_value (col_line_with pr c) = parseInt (pr c).
Proof.
  unfold header_value, col_line_with.
  change (lit "cols=" ++ pr c) with (lit "cols" ++ "="%char :: pr c).
  rewrite split_app_sep by (repeat constructor).
  rewrite split_no_char by (apply no_char_rendered; reflexivity).
  reflexivity.
Qed.

Lemma loadFromFile_lines_with text r c r' c' (body : list jsstring) :
  split nl text = row_line_with pr r :: col_line_with pr c :: body ->
  parseInt (pr r) = Some r' -> parseInt (pr c) = Some c' ->
  loadFromFile text = Some (load_lines (mkSparseMatrix r' c' []) body).
Proof.
  intros Hs Hr Hc. unfold loadFromFile. rewrite Hs. cbv beta iota zeta.
  unfold row_line_with at 1. rewrite startsWith_app. cbn [negb].
  unfold col_line_with at 1. rewrite startsWith_app. cbn [negb].
  rewrite header_value_row_with, header_value_col_with, Hr, Hc. reflexivity.
Qed.

Lemma loadMatrix_lines_with text r c r' c' (body : list jsstring) :
  split nl text = row_line_with pr r :: col_line_with pr c :: body ->
  parseInt (pr r) = Some r' -> parseInt (pr c) = Some c' ->
  DsaFile.loadMatrix text =
  match DsaFile.load_entries (mkSparseMatrix r' c' []) body with
  | Some this => Some (Ok this)
  | None => None
  end.
Proof.
  intros Hs Hr Hc. unfold DsaFile.loadMatrix. rewrite Hs.
  rewrite header_value_row_with, header_value_col_with, Hr, Hc. reflexivity.
Qed.

(** Entry lines whose numbers [parseInt] reads back replay as [setElement]
    calls. *)
Section ReadByParseInt.

Hypothesis pr_parseInt : forall z, parseInt (pr z) = Some z.

Lemma load_line_entry_text_with this r c v :
  load_line this (entry_text_with pr r c v) = Ok (setElement this r c v).
Proof.
  unfold load_line. rewrite trim_entry_text_with.
  pose proof (parse_element_entry_text_with r c v) as Hp.
  rewrite !pr_parseInt in Hp.
  destruct (entry_text_with pr r c v) as [|x t] eqn:E.
  - rewrite entry_text_with_shape in E. discriminate E.
  - rewrite Hp. reflexivity.
Qed.

Lemma load_lines_entries_with (es : list (Z * Z * Z)) this :
  load_lines this (map (entry_of_text_with pr) es) =
  Ok (fold_left (fun m e => setElement m (fst (fst e)) (snd (fst e)) (snd e))
        es this).
Proof.
  revert this. induction es as [|[[r c] v] t IH]; intros this.
  - reflexivity.
  - cbn [map load_lines fold_left]. unfold entry_of_text_with at 1.
    cbn [fst snd]. rewrite load_line_entry_text_with. cbn [bind]. apply IH.
Qed.

End ReadByParseInt.

(** Entry lines whose numbers [Number] reads back replay as [setElement]
    calls in [main.js]. *)
Section ReadByNumber.

Hypothesis pr_Number_of : forall z, DsaFile.Number_of (pr z) = Some z.

Lemma load_entries_entries_with (es : list (Z * Z * Z)) (more : list jsstring)
    this :
  DsaFile.load_entries this (map (entry_of_text_with pr) es ++ more) =
  DsaFile.load_entries
    (fold_left (fun m e => setElement m (fst (fst e)) (snd (fst e)) (snd e))
       es this) more.
Proof.
  revert this. induction es as [|[[r c] v] t IH]; intros this.
  - reflexivity.
  - cbn [map app DsaFile.load_entries fold_left].
    unfold entry_of_text_with at 1. cbn [fst snd].
    rewrite trim_entry_text_with.
    pose proof (load_entry_entry_text_with r c v) as Hl.
    rewrite !pr_Number_of in Hl.
    destruct (entry_text_with pr r c v) as [|x t'] eqn:E.
    + rewrite entry_text_with_shape in E. discriminate E.
    + rewrite Hl. apply IH.
Qed.

End ReadByNumber.

End Rendering.

(** ** toString and loadFromFile *)

Lemma entry_line_eq r c v :
  entry_line r c v = entry_text_with number_to_string r c v ++ [nl].
Proof.
  unfold entry_line, entry_text_with. repeat rewrite <- app_assoc.
  reflexivity.
Qed.

(** The text of a matrix: the two header lines, then one line per entry,
    separated by line breaks, with no line break at the end. *)
Lemma toString_eq this :
  toString this =
  text_with number_to_string (rows this) (cols this) (elements this).
Proof.
  unfold toString. cbv zeta.
  assert (Hfold : forall es init,
    fold_left (fun result entry =>
      let '((row, col), value) := entry in
      result ++ entry_line row col value) es init =
    fold_left (fun result entry =>
      let '((row, col), value) := entry in
      result ++ (entry_text_with number_to_string row col value ++ [nl]))
      es init).
  { induction es as [|[[r c] v] t IH]; intros init; [reflexivity|].
    cbn [fold_left]. rewrite entry_line_eq. apply IH. }
  rewrite Hfold, fold_entry_lines, text_with_break.
  apply trim_text_with_break.
  - apply number_to_string_chars.
  - apply number_to_string_nonempty.
Qed.

Lemma map_get_absent {K V : Type} `{KeyEq K} (k : K) (m : jsmap K V) :
  ~ In k (map fst m) -> map_get k m = None.
Proof.
  induction m as [|[k' v'] t IH]; simpl; intros Hnotin; [reflexivity|].
  destruct (key_eqb k k') eqn:E.
  - apply key_eqb_spec in E. subst k'. exfalso. apply Hnotin. left. reflexivity.
  - apply IH. intros Hin. apply Hnotin. right. exact Hin.
Qed.

(** Replaying the entries of a well-formed map through [setElement]
    rebuilds the map, in order. *)
Lemma replay_entries (r c : Z) (es acc : jsmap (Z * Z) Z) :
  NoDup (map fst (acc ++ es)) -> Forall (fun e => snd e <> 0) es ->
  fold_left (fun m e => setElement m (fst (fst e)) (snd (fst e)) (snd e))
    es (mkSparseMatrix r c acc) = mkSparseMatrix r c (acc ++ es).
Proof.
  revert acc. induction es as [|[[row col] value] t IH]; intros acc Hnd Hnz.
  - simpl. rewrite app_nil_r. reflexivity.
  - inversion Hnz as [|? ? Hv Hnz']; subst. simpl in Hv.
    cbn [fold_left fst snd]. unfold setElement at 2. cbn [rows cols elements].
    apply Z.eqb_neq in Hv. rewrite Hv. cbn [negb].
    rewrite map_set_absent.
    + rewrite IH; [|rewrite <- app_assoc; exact Hnd|exact Hnz'].
      rewrite <- app_assoc. reflexivity.
    + apply map_get_absent. rewrite map_app in Hnd. simpl in Hnd.
      apply NoDup_remove_2 in Hnd. intros Hin. apply Hnd.
      apply in_or_app. left. exact Hin.
Qed.

(** Below 10^21 the template literal writes the digits out. *)
Lemma text_with_plain this :
  plain_matrix this ->
  text_with number_to_string (rows this) (cols this) (elements this) =
  matrix_text (rows this) (cols this) (elements this).
Proof.
  intros (Hr & Hc & Hes). unfold matrix_text, text_with.
  unfold row_line_with, col_line_with.
  rewrite (number_to_string_plain _ Hr), (number_to_string_plain _ Hc).
  do 4 f_equal. induction Hes as [|[[r c] v] t (H1 & H2 & H3) Ht IH].
  - reflexivity.
  - cbn [map concat]. rewrite IH. do 2 f_equal.
    unfold entry_of_text_with, entry_text_with. cbn [fst snd] in *.
    rewrite (number_to_string_plain _ H1), (number_to_string_plain _ H2),
      (number_to_string_plain _ H3). reflexivity.
Qed.

Lemma loadFromFile_lines text r c (body : list jsstring) :
  split nl text =
    row_line_with plain_decimal r :: col_line_with plain_decimal c :: body ->
  loadFromFile text = Some (load_lines (mkSparseMatrix r c []) body).
Proof.
  intros Hs.
  apply (loadFromFile_lines_with plain_decimal plain_decimal_chars _ r c);
    [exact Hs|apply parseInt_plain_decimal..].
Qed.

Lemma load_lines_entries (es : list (Z * Z * Z)) this :
  load_lines this (map (entry_of_text_with plain_decimal) es) =
  Ok (fold_left (fun m e => setElement m (fst (fst e)) (snd (fst e)) (snd e))
        es this).
Proof.
  apply load_lines_entries_with.
  - apply plain_decimal_chars.
  - apply plain_decimal_nonempty.
  - apply parseInt_plain_decimal.
Qed.

Lemma split_matrix_text r c es :
  split nl (matrix_text r c es) =
  row_line_with plain_decimal r :: col_line_with plain_decimal c ::
  map (entry_of_text_with plain_decimal) es.
Proof. apply split_text_with. apply plain_decimal_chars. Qed.

Lemma split_matrix_text_then r c es rest :
  split nl (matrix_text r c es ++ nl :: rest) =
  row_line_with plain_decimal r :: col_line_with plain_decimal c ::
  map (entry_of_text_with plain_decimal) es ++ split nl rest.
Proof. apply split_text_with_then. apply plain_decimal_chars. Qed.

Lemma matrix_of_fold r c (es : list (Z * Z * Z)) :
  fold_left (fun m e => setElement m (fst (fst e)) (snd (fst e)) (snd e))
    es (mkSparseMatrix r c []) = matrix_of r c es.
Proof.
  unfold matrix_of. generalize (mkSparseMatrix r c []).
  induction es as [|[[row col] value] t IH]; intros m; [reflexivity|].
  cbn [fold_left fst snd]. apply IH.
Qed.

Lemma loadFromFile_plain_text (r c : Z) (es : list (Z * Z * Z)) :
  loadFromFile (matrix_text r c es) = Some (Ok (matrix_of r c es)).
Proof.
  rewrite (loadFromFile_lines _ r c (map (entry_of_text_with plain_decimal) es)).
  - rewrite load_lines_entries, matrix_of_fold. reflexivity.
  - apply split_matrix_text.
Qed.

Lemma matrix_of_elements this :
  wf_elements (elements this) ->
  matrix_of (rows this) (cols this) (elements this) = this.
Proof.
  intros [Hnd Hnz]. rewrite <- matrix_of_fold.
  rewrite (replay_entries _ _ _ [] Hnd Hnz). destruct this; reflexivity.
Qed.

(** Loading the text of a well-formed matrix whose numbers are below 10^21
    in magnitude gives the matrix back. *)
Lemma loadFromFile_toString this :
  wf_elements (elements this) -> plain_matrix this ->
  loadFromFile (toString this) = Some (Ok this).
Proof.
  intros Hwf Hplain.
  rewrite toString_eq, (text_with_plain _ Hplain), loadFromFile_plain_text.
  rewrite (matrix_of_elements _ Hwf). reflexivity.
Qed.

Lemma plain_matrix_of r c (es : list (Z * Z * Z)) :
  plain_number r -> plain_number c ->
  Forall (fun e => plain_number (fst (fst e)) /\
                   plain_number (snd (fst e)) /\ plain_number (snd e)) es ->
  plain_matrix (matrix_of r c es).
Proof.
  intros Hr Hc Hes. unfold matrix_of.
  assert (Hgen : forall m, plain_matrix m ->
    plain_matrix (fold_left (fun m e =>
      let '(row, col, value) := e in setElement m row col value) es m)).
  { induction Hes as [|[[row col] value] t (H1 & H2 & H3) Ht IH]; intros m Hm.
    - exact Hm.
    - cbn [fold_left]. apply IH. destruct Hm as (Hmr & Hmc & Hme).
      cbn [fst snd] in *. unfold setElement.
      destruct (negb (value =? 0)); (split; [exact Hmr|split; [exact Hmc|]]);
        cbn [elements].
      + clear -Hme H1 H2 H3. induction Hme as [|[[r0 c0] v0] m' Hx Hm' IHm].
        * cbn. repeat constructor; assumption.
        * cbn [map_set]. destruct (key_eqb (row, col) (r0, c0)).
          -- constructor; [|exact Hm']. cbn [fst snd] in *.
             destruct Hx as (Hx1 & Hx2 & _). auto.
          -- constructor; [exact Hx|exact IHm].
      + unfold map_delete. apply Forall_forall. intros e He.
        apply filter_In in He. destruct He as [He _].
        rewrite Forall_forall in Hme. apply Hme. exact He. }
  apply Hgen. split; [exact Hr|split; [exact Hc|constructor]].
Qed.

(** C8, amended.  For every matrix satisfying the invariants of the class
    (unique keys, no stored zero) whose dimensions, coordinates and values
    are below 10^21 in magnitude, loading the text produced by [toString]
    returns a matrix with the same [rows], the same [cols] and the same
    (row, col, value) triples; it is in fact the same matrix, entries in the
    same order. *)
Theorem C8_round_trip (M : SparseMatrix) :
  wf_elements (elements M) -> plain_matrix M ->
  exists M', loadFromFile (toString M) = Some (Ok M') /\
    rows M' = rows M /\ cols M' = cols M /\ same_entries M' M /\ M' = M.
Proof.
  intros Hwf Hplain. exists M.
  split; [apply loadFromFile_toString; assumption|].
  repeat split; intros H; exact H.
Qed.

Lemma plain_number_small z : Z.abs z < 10 -> plain_number z.
Proof.
  intros Hz. unfold plain_number.
  assert (10 < 10 ^ 21) by (vm_compute; reflexivity). lia.
Qed.

Lemma plain_matrix_edgeA : plain_matrix edgeA.
Proof.
  apply plain_matrix_of; [apply plain_number_small; simpl; lia..|].
  repeat constructor; apply plain_number_small; simpl; lia.
Qed.

Lemma C8_witness :
  exists M', loadFromFile (toString edgeA) = Some (Ok M') /\
    rows M' = rows edgeA /\ cols M' = cols edgeA /\ same_entries M' edgeA /\
    M' = edgeA.
Proof.
  apply (C8_round_trip edgeA).
  - apply wf_matrix_of.
  - apply plain_matrix_edgeA.
Defined.

(** C8 as stated fails.  The 1x1 matrix holding 10^21 satisfies the
    invariants; its value is printed as [1e+21], of which [parseInt] reads
    the leading [1], and the matrix loaded back holds 1. *)
Lemma C8_counterexample :
  wf_elements (elements wideM) /\
  toString wideM =
    lit "rows=1" ++ nl :: lit "cols=1" ++ nl :: lit "(0, 0, 1e+21)" /\
  loadFromFile (toString wideM) = Some (Ok (mkSparseMatrix 1 1 [((0,0),1)])) /\
  ~ same_entries (mkSparseMatrix 1 1 [((0,0),1)]) wideM.
Proof.
  split; [apply wf_matrix_of|].
  split; [vm_compute; reflexivity|].
  split; [vm_compute; reflexivity|].
  intros H. specialize (H 0 0 1). destruct H as [H _].
  assert (Hin : In ((0, 0), 1) (elements wideM)) by (apply H; left; reflexivity).
  vm_compute in Hin. destruct Hin as [Hin|[]]. discriminate Hin.
Qed.

(** ** The key encoding *)

Section KeyEncoding.

Lemma split_key_string row col :
  split ","%char (key_string row col) =
  [number_to_string row; number_to_string col].
Proof.
  unfold key_string. cbn [lit list_ascii_of_string app].
  rewrite split_app_sep by (apply (no_char_rendered _ number_to_string_chars); reflexivity).
  rewrite split_no_char by (apply (no_char_rendered _ number_to_string_chars); reflexivity).
  reflexivity.
Qed.

(** [key.split(",").map(Number)] recovers the coordinates. *)
Lemma split_key_key_string row col :
  split_key (key_string row col) = Some (row, col).
Proof.
  unfold split_key. rewrite split_key_string. cbn [map].
  rewrite !to_Number_number_to_string. reflexivity.
Qed.

(** Distinct coordinates have distinct keys: the map keyed by the template
    string is the map keyed by the pair. *)
Lemma key_string_inj row col row' col' :
  key_string row col = key_string row' col' -> (row, col) = (row', col').
Proof.
  intros Heq. pose proof (split_key_key_string row col) as H1.
  rewrite Heq, split_key_key_string in H1. congruence.
Qed.

End KeyEncoding.

(** ** The invariants hold of every matrix the class builds *)

Lemma wf_multiply_matrix this other acc :
  wf_elements (elements acc) ->
  wf_elements (elements (multiply_matrix this other acc)).
Proof.
  unfold multiply_matrix. revert acc.
  induction (elements this) as [|[[row1 col1] value1] t IH]; intros acc Hacc.
  - exact Hacc.
  - cbn [fold_left]. apply IH. unfold for_loop.
    apply (invariant_fold (fun a => wf_elements (elements a))
             (multiply_cell (build_column_index other) row1 col1 value1));
      [|exact Hacc].
    intros col2 a Ha. unfold multiply_cell.
    destruct (map_get col2 _) as [column|]; [|exact Ha].
    destruct (map_get col1 column) as [value2|]; [|exact Ha].
    cbv zeta. destruct (negb (_ =? 0)); [|exact Ha].
    apply wf_setElement. exact Ha.
Qed.

Lemma wf_multiply this other R :
  multiply0 this other = Ok R -> wf_elements (elements R).
Proof.
  unfold multiply0. rewrite multiply_eq.
  destruct (negb (cols this =? rows other)); [discriminate|].
  destruct ((rows this =? 0) || (cols other =? 0)); [discriminate|].
  cbn [fst]. intros [= <-]. apply wf_multiply_matrix. apply wf_elements_nil.
Qed.

Lemma wf_load_lines lines this R :
  wf_elements (elements this) -> load_lines this lines = Ok R ->
  wf_elements (elements R).
Proof.
  revert this. induction lines as [|raw rest IH]; intros this Hwf.
  - intros [= <-]. exact Hwf.
  - cbn [load_lines]. unfold load_line.
    destruct (trim raw) as [|x t]; cbn [bind].
    + apply IH. exact Hwf.
    + destruct (parse_element (x :: t)) as [[[row col] value]|m]; cbn [bind].
      * apply IH. apply wf_setElement. exact Hwf.
      * discriminate.
Qed.

Lemma wf_loadFromFile text R :
  loadFromFile text = Some (Ok R) -> wf_elements (elements R).
Proof.
  unfold loadFromFile. destruct (split nl text) as [|line0 [|line1 body]].
  - discriminate.
  - destruct (negb (startsWith (lit "rows=") line0)); discriminate.
  - destruct (negb (startsWith (lit "rows=") line0)); [discriminate|].
    destruct (negb (startsWith (lit "cols=") line1)); [discriminate|].
    destruct (header_value line0) as [r|], (header_value line1) as [c|];
      try (destruct (load_lines _ body); discriminate).
    intros [= Hl]. eapply wf_load_lines; [|exact Hl]. apply wf_elements_nil.
Qed.

(** ** The second implementation on the same inputs *)

(** Its add and subtract fold the entries of [other] into a copy of [this]:
    an entry outside the declared dimensions survives both. *)
Example Dsa_add_subtract_edge :
  Dsa.add edgeA edgeB = Ok (mkSparseMatrix 2 2 [((0,0),4); ((2,1),7)]) /\
  Dsa.subtract (mkSparseMatrix 2 2 [((0,0),4); ((2,1),7)]) edgeB =
    Ok (mkSparseMatrix 2 2 [((0,0),1); ((2,1),7)]).
Proof. split; vm_compute; reflexivity. Qed.

(** * Further properties *)

(** ** Reading values *)

Lemma getElement_value this row col :
  getElement this row col =
  match map_get (row, col) (elements this) with Some v => v | None => 0 end.
Proof.
  unfold getElement. destruct (map_get (row, col) (elements this)) as [v|];
    [|reflexivity].
  destruct (v =? 0) eqn:E; [|reflexivity]. apply Z.eqb_eq in E. congruence.
Qed.

Lemma getElement_cons this r c k v t row col :
  elements this = (k, v) :: t ->
  getElement this row col =
  if pair_eqb (row, col) k then v else getElement (mkSparseMatrix r c t) row col.
Proof.
  intros He. rewrite !getElement_value, He. cbn [elements map_get key_eqb KeyEq_pair].
  destruct (pair_eqb (row, col) k); reflexivity.
Qed.

Lemma getElement_absent this row col :
  ~ In (row, col) (map fst (elements this)) -> getElement this row col = 0.
Proof.
  intros Hn. rewrite getElement_value, (map_get_absent _ _ Hn). reflexivity.
Qed.

(** ** The second implementation: add and subtract *)

Lemma copy_elements_fold r c (es acc : jsmap (Z * Z) Z) :
  NoDup (map fst (acc ++ es)) ->
  fold_left (fun result entry =>
    let '(key, value) := entry in
    mkSparseMatrix (rows result) (cols result)
      (map_set key value (elements result))) es (mkSparseMatrix r c acc) =
  mkSparseMatrix r c (acc ++ es).
Proof.
  revert acc. induction es as [|[k v] t IH]; intros acc Hnd.
  - simpl. rewrite app_nil_r. reflexivity.
  - cbn [fold_left rows cols elements]. rewrite map_set_absent.
    + rewrite IH; [|rewrite <- app_assoc; exact Hnd].
      rewrite <- app_assoc. reflexivity.
    + apply map_get_absent. rewrite map_app in Hnd. simpl in Hnd.
      apply NoDup_remove_2 in Hnd. intros Hin. apply Hnd.
      apply in_or_app. left. exact Hin.
Qed.

Lemma copy_elements_unique this r c :
  unique_keys this ->
  Dsa.copy_elements this (Dsa.new_SparseMatrix r c) =
  mkSparseMatrix r c (elements this).
Proof.
  intros Hnd. unfold Dsa.copy_elements, Dsa.new_SparseMatrix.
  apply (copy_elements_fold r c (elements this) []). exact Hnd.
Qed.

Lemma pair_eqb_sym a b : pair_eqb a b = pair_eqb b a.
Proof.
  unfold pair_eqb. rewrite (Z.eqb_sym (fst a)), (Z.eqb_sym (snd a)).
  reflexivity.
Qed.

Lemma getElement_accumulate op es result r c :
  NoDup (map fst es) ->
  getElement (accumulate op es result) r c =
  match map_get (r, c) es with
  | Some v => op (getElement result r c) v
  | None => getElement result r c
  end.
Proof.
  unfold accumulate. revert result.
  induction es as [|[[row col] value] t IH]; intros result Hnd.
  - reflexivity.
  - inversion Hnd as [|? ? Hnotin Hnd']; subst.
    cbn [fold_left]. rewrite (IH _ Hnd'). cbn [map_get key_eqb KeyEq_pair].
    rewrite getElement_setElement.
    change ((row =? r) && (col =? c)) with (pair_eqb (row, col) (r, c)).
    rewrite (pair_eqb_sym (row, col)).
    destruct (pair_eqb (r, c) (row, col)) eqn:E; [|reflexivity].
    apply pair_eqb_spec in E. injection E as -> ->.
    rewrite (map_get_absent _ _ Hnotin). reflexivity.
Qed.

Lemma accumulate_invariant (P : SparseMatrix -> Prop) op es result :
  (forall row col value a, P a -> P (setElement a row col value)) ->
  P result -> P (accumulate op es result).
Proof.
  intros Hset. unfold accumulate. revert result.
  induction es as [|[[row col] value] t IH]; intros result Hp.
  - exact Hp.
  - cbn [fold_left]. apply IH. apply Hset. exact Hp.
Qed.

Lemma Dsa_add_eq this other :
  unique_keys this ->
  Dsa.add this other =
  if negb (cols this =? cols other) || negb (rows this =? rows other)
  then Throw (lit "Matrices dimensions do not match for addition")
  else Ok (accumulate Z.add (elements other)
             (mkSparseMatrix (rows this) (cols this) (elements this))).
Proof.
  intros Hu. unfold Dsa.add.
  destruct (negb (cols this =? cols other) || negb (rows this =? rows other));
    [reflexivity|].
  cbv zeta. rewrite (copy_elements_unique _ _ _ Hu). reflexivity.
Qed.

Lemma Dsa_subtract_eq this other :
  unique_keys this ->
  Dsa.subtract this other =
  if negb (rows this =? rows other) || negb (cols this =? cols other)
  then Throw (lit "Matrices dimensions do not match for subtraction")
  else Ok (accumulate Z.sub (elements other)
             (mkSparseMatrix (rows this) (cols this) (elements this))).
Proof.
  intros Hu. unfold Dsa.subtract.
  destruct (negb (rows this =? rows other) || negb (cols this =? cols other));
    [reflexivity|].
  cbv zeta. rewrite (copy_elements_unique _ _ _ Hu). reflexivity.
Qed.

Lemma getElement_same_elements this r c row col :
  getElement (mkSparseMatrix r c (elements this)) row col =
  getElement this row col.
Proof. reflexivity. Qed.

(** What a sum or difference of the second implementation holds. *)
Lemma Dsa_add_inv this other :
  unique_keys this -> unique_keys other ->
  rows this = rows other -> cols this = cols other ->
  exists R, Dsa.add this other = Ok R /\
    rows R = rows this /\ cols R = cols this /\
    (wf_elements (elements this) -> wf_elements (elements R)) /\
    forall row col,
      getElement R row col = getElement this row col + getElement other row col.
Proof.
  intros Hu Hv Hr Hc. rewrite (Dsa_add_eq _ _ Hu).
  rewrite (dims_check_false _ _ _ _ Hc Hr). eexists. split; [reflexivity|].
  split; [|split; [|split]].
  - apply (accumulate_invariant (fun a => rows a = rows this)); [|reflexivity].
    intros. rewrite rows_setElement. assumption.
  - apply (accumulate_invariant (fun a => cols a = cols this)); [|reflexivity].
    intros. rewrite cols_setElement. assumption.
  - intros Hwf.
    apply (accumulate_invariant (fun a => wf_elements (elements a)));
      [|exact Hwf].
    intros. apply wf_setElement. assumption.
  - intros row col. rewrite (getElement_accumulate _ _ _ _ _ Hv).
    rewrite getElement_same_elements, (getElement_value other).
    destruct (map_get (row, col) (elements other)); lia.
Qed.

Lemma Dsa_subtract_inv this other :
  unique_keys this -> unique_keys other ->
  rows this = rows other -> cols this = cols other ->
  exists R, Dsa.subtract this other = Ok R /\
    rows R = rows this /\ cols R = cols this /\
    (wf_elements (elements this) -> wf_elements (elements R)) /\
    forall row col,
      getElement R row col = getElement this row col - getElement other row col.
Proof.
  intros Hu Hv Hr Hc. rewrite (Dsa_subtract_eq _ _ Hu).
  rewrite (dims_check_false _ _ _ _ Hr Hc). eexists. split; [reflexivity|].
  split; [|split; [|split]].
  - apply (accumulate_invariant (fun a => rows a = rows this)); [|reflexivity].
    intros. rewrite rows_setElement. assumption.
  - apply (accumulate_invariant (fun a => cols a = cols this)); [|reflexivity].
    intros. rewrite cols_setElement. assumption.
  - intros Hwf.
    apply (accumulate_invariant (fun a => wf_elements (elements a)));
      [|exact Hwf].
    intros. apply wf_setElement. assumption.
  - intros row col. rewrite (getElement_accumulate _ _ _ _ _ Hv).
    rewrite getElement_same_elements, (getElement_value other).
    destruct (map_get (row, col) (elements other)); lia.
Qed.

(** add of [main.js] returns exactly when the dimensions agree (zero
    dimensions included), and the sum then reads [this + other] at every
    integer coordinate, inside the declared dimensions or not. *)
Theorem Dsa_add_sums_everywhere (A B : SparseMatrix) :
  unique_keys A -> unique_keys B ->
  ((exists R, Dsa.add A B = Ok R) <-> rows A = rows B /\ cols A = cols B) /\
  (forall R, Dsa.add A B = Ok R ->
     rows R = rows A /\ cols R = cols A /\
     forall row col,
       getElement R row col = getElement A row col + getElement B row col).
Proof.
  intros Hu Hv. split.
  - split.
    + intros [R HR]. rewrite (Dsa_add_eq _ _ Hu) in HR.
      destruct (negb (cols A =? cols B) || negb (rows A =? rows B)) eqn:E;
        [discriminate|].
      apply orb_false_iff in E. rewrite !negb_false_iff, !Z.eqb_eq in E. tauto.
    + intros [Hr Hc]. destruct (Dsa_add_inv A B Hu Hv Hr Hc) as (R & HR & _).
      exists R. exact HR.
  - intros R HR.
    assert (Hd : rows A = rows B /\ cols A = cols B).
    { rewrite (Dsa_add_eq _ _ Hu) in HR.
      destruct (negb (cols A =? cols B) || negb (rows A =? rows B)) eqn:E;
        [discriminate|].
      apply orb_false_iff in E. rewrite !negb_false_iff, !Z.eqb_eq in E. tauto. }
    destruct Hd as [Hr Hc].
    destruct (Dsa_add_inv A B Hu Hv Hr Hc) as (R' & HR' & H1 & H2 & _ & H3).
    rewrite HR in HR'. injection HR' as <-. auto.
Qed.

Lemma unique_keys_matrix_of r c entries : unique_keys (matrix_of r c entries).
Proof. apply wf_matrix_of. Qed.

Lemma Dsa_add_sums_everywhere_witness :
  ((exists R, Dsa.add edgeA edgeB = Ok R) <->
     rows edgeA = rows edgeB /\ cols edgeA = cols edgeB) /\
  (forall R, Dsa.add edgeA edgeB = Ok R ->
     rows R = rows edgeA /\ cols R = cols edgeA /\
     forall row col,
       getElement R row col =
       getElement edgeA row col + getElement edgeB row col).
Proof.
  apply (Dsa_add_sums_everywhere edgeA edgeB); apply unique_keys_matrix_of.
Defined.

Lemma values_bounded_edgeA :
  Forall (fun e => Z.abs (snd e) <= 7) (elements edgeA).
Proof. repeat constructor; simpl; lia. Qed.

Lemma values_bounded_edgeB :
  Forall (fun e => Z.abs (snd e) <= 7) (elements edgeB).
Proof. repeat constructor; simpl; lia. Qed.

(** In [main.js], subtracting what was added gives back the entries of the
    first operand, whatever the coordinates of the entries and whatever the
    dimensions, when the stored values and the sums of corresponding values
    are safe integers (at most 2^53 - 1 in magnitude). *)
Theorem Dsa_add_subtract_inverse (A B : SparseMatrix) :
  wf_elements (elements A) -> unique_keys B ->
  rows A = rows B -> cols A = cols B ->
  safe_values A -> safe_values B ->
  (forall row col,
     safe_integer (getElement A row col + getElement B row col)) ->
  exists S D, Dsa.add A B = Ok S /\ Dsa.subtract S B = Ok D /\
    rows D = rows A /\ cols D = cols A /\ same_entries D A.
Proof.
  intros Hwf Hv Hr Hc _ _ _. pose proof (proj1 Hwf) as Hu.
  destruct (Dsa_add_inv A B Hu Hv Hr Hc) as (S & HS & HrS & HcS & HwfS & HgS).
  specialize (HwfS Hwf).
  destruct (Dsa_subtract_inv S B (proj1 HwfS) Hv) as
    (D & HD & HrD & HcD & HwfD & HgD); try congruence.
  exists S, D. repeat (split; [first [assumption|congruence]|]).
  apply same_entries_of_getElement; [apply HwfD; exact HwfS|exact Hwf|].
  intros row col. rewrite HgD, HgS. lia.
Qed.

Lemma Dsa_add_subtract_inverse_witness :
  exists S D, Dsa.add edgeA edgeB = Ok S /\ Dsa.subtract S edgeB = Ok D /\
    rows D = rows edgeA /\ cols D = cols edgeA /\ same_entries D edgeA.
Proof.
  apply (Dsa_add_subtract_inverse edgeA edgeB); try reflexivity.
  - apply wf_matrix_of.
  - apply unique_keys_matrix_of.
  - apply (safe_values_bounded edgeA 7); [unfold MAX_SAFE_INTEGER; lia|].
    apply values_bounded_edgeA.
  - apply (safe_values_bounded edgeB 7); [unfold MAX_SAFE_INTEGER; lia|].
    apply values_bounded_edgeB.
  - apply (safe_sums_bounded edgeA edgeB 7);
      [lia|unfold MAX_SAFE_INTEGER; lia
      |apply values_bounded_edgeA|apply values_bounded_edgeB].
Defined.

(** In [main.js], [A.add(B)] and [B.add(A)] store the same triples (their
    order in the map may differ). *)
Theorem Dsa_add_commutative (A B : SparseMatrix) :
  wf_elements (elements A) -> wf_elements (elements B) ->
  rows A = rows B -> cols A = cols B ->
  exists R R', Dsa.add A B = Ok R /\ Dsa.add B A = Ok R' /\ same_entries R R'.
Proof.
  intros HwA HwB Hr Hc.
  destruct (Dsa_add_inv A B (proj1 HwA) (proj1 HwB) Hr Hc)
    as (R & HR & _ & _ & HwR & HgR).
  destruct (Dsa_add_inv B A (proj1 HwB) (proj1 HwA) (eq_sym Hr) (eq_sym Hc))
    as (R' & HR' & _ & _ & HwR' & HgR').
  exists R, R'. split; [exact HR|split; [exact HR'|]].
  apply same_entries_of_getElement; [apply HwR; exact HwA|apply HwR'; exact HwB|].
  intros row col. rewrite HgR, HgR'. lia.
Qed.

Lemma Dsa_add_commutative_witness :
  exists R R', Dsa.add exA exB = Ok R /\ Dsa.add exB exA = Ok R' /\
    same_entries R R'.
Proof.
  apply (Dsa_add_commutative exA exB); try reflexivity; apply wf_matrix_of.
Defined.

(** ** Sums over a range and over the stored entries *)

Lemma fold_left_add_zsum {A : Type} (h : A -> Z) (l : list A) (a : Z) :
  fold_left (fun acc x => acc + h x) l a = a + zsum (map h l).
Proof.
  revert a. induction l as [|x t IH]; intros a; simpl; [lia|].
  rewrite IH. lia.
Qed.

Lemma zsum_cons (x : Z) (l : list Z) : zsum (x :: l) = x + zsum l.
Proof. reflexivity. Qed.

Lemma zsum_map_add {A : Type} (f g : A -> Z) (l : list A) :
  zsum (map (fun x => f x + g x) l) = zsum (map f l) + zsum (map g l).
Proof. induction l as [|x t IH]; simpl; [reflexivity|]. rewrite IH. lia. Qed.

Lemma zsum_map_ext {A : Type} (f g : A -> Z) (l : list A) :
  (forall x, In x l -> f x = g x) -> zsum (map f l) = zsum (map g l).
Proof.
  induction l as [|x t IH]; intros Hfg; simpl; [reflexivity|].
  rewrite (Hfg x (or_introl eq_refl)), IH; [reflexivity|].
  intros y Hy. apply Hfg. right. exact Hy.
Qed.

Lemma zsum_map_zero {A : Type} (l : list A) : zsum (map (fun _ => 0) l) = 0.
Proof. induction l as [|x t IH]; simpl; [reflexivity|exact IH]. Qed.

Lemma zsum_point (l : list Z) (k a : Z) :
  NoDup l -> In k l -> zsum (map (fun x => if x =? k then a else 0) l) = a.
Proof.
  induction l as [|x t IH]; intros Hnd Hin; [contradiction|].
  inversion Hnd as [|? ? Hx Hnd']; subst. simpl.
  destruct Hin as [->|Hin].
  - rewrite Z.eqb_refl.
    rewrite (zsum_map_ext (fun x => if x =? k then a else 0) (fun _ => 0)).
    + rewrite zsum_map_zero. lia.
    + intros y Hy. destruct (y =? k) eqn:E; [|reflexivity].
      apply Z.eqb_eq in E. subst y. contradiction.
  - destruct (x =? k) eqn:E.
    + apply Z.eqb_eq in E. subst x. contradiction.
    + rewrite (IH Hnd' Hin). lia.
Qed.

Lemma NoDup_map_injective {A B : Type} (f : A -> B) (l : list A) :
  (forall a b, f a = f b -> a = b) -> NoDup l -> NoDup (map f l).
Proof.
  intros Hinj. induction l as [|x t IH]; intros Hnd; simpl; [constructor|].
  inversion Hnd as [|? ? Hx Hnd']; subst. constructor; [|apply IH; exact Hnd'].
  intros Hin. apply in_map_iff in Hin. destruct Hin as (y & Hy & Hin).
  apply Hinj in Hy. subst y. contradiction.
Qed.

Lemma upto_NoDup (n : Z) : NoDup (upto n).
Proof.
  unfold upto. apply NoDup_map_injective; [|apply seq_NoDup].
  intros a b Hab. apply Nat2Z.inj. exact Hab.
Qed.

Lemma product_entry_zsum this other i j :
  product_entry this other i j =
  zsum (map (fun k => getElement this i k * getElement other k j)
          (upto (cols this))).
Proof. unfold product_entry. rewrite fold_left_add_zsum. lia. Qed.

Lemma zsum_bounded {A : Type} (f : A -> Z) (l : list A) (m : Z) :
  (forall x, Z.abs (f x) <= m) ->
  Z.abs (zsum (map f l)) <= Z.of_nat (List.length l) * m.
Proof.
  intros Hf. induction l as [|x t IH].
  - simpl. lia.
  - cbn [map List.length]. rewrite zsum_cons, Nat2Z.inj_succ, Z.mul_succ_l.
    specialize (Hf x). lia.
Qed.

(** Entries of a product are bounded through the stored values. *)
Lemma product_entry_bounded this other a b i j :
  0 <= a -> 0 <= b ->
  Forall (fun e => Z.abs (snd e) <= a) (elements this) ->
  Forall (fun e => Z.abs (snd e) <= b) (elements other) ->
  Z.abs (product_entry this other i j) <=
  Z.of_nat (List.length (upto (cols this))) * (a * b).
Proof.
  intros Ha Hb HA HB. rewrite product_entry_zsum. apply zsum_bounded.
  intros k. rewrite Z.abs_mul.
  pose proof (getElement_bounded this a i k Ha HA).
  pose proof (getElement_bounded other b k j Hb HB).
  pose proof (Z.abs_nonneg (getElement this i k)).
  pose proof (Z.abs_nonneg (getElement other k j)). nia.
Qed.

Lemma values_bounded_abs this b :
  Forall (fun e => Z.abs (snd e) <= b) (elements this) ->
  Forall (fun e => Z.abs (snd e) <= b) (elements (abs_values this)).
Proof.
  intros H. unfold abs_values. cbn [elements]. apply Forall_map.
  eapply Forall_impl; [|exact H]. intros e He. cbv beta in *. cbn [snd].
  rewrite Z.abs_idemp. exact He.
Qed.

Lemma sparse_dot_zsum this other i j :
  sparse_dot this other i j =
  zsum (map (fun e => if fst (fst e) =? i
                      then snd e * getElement other (snd (fst e)) j else 0)
          (elements this)).
Proof.
  unfold sparse_dot.
  assert (G : forall es a,
    fold_left (fun acc entry =>
      let '((row1, col1), value1) := entry in
      if row1 =? i then acc + value1 * getElement other col1 j else acc) es a =
    a + zsum (map (fun e => if fst (fst e) =? i
                            then snd e * getElement other (snd (fst e)) j
                            else 0) es)).
  { induction es as [|[[r c] v] t IH]; intros a; simpl; [lia|].
    rewrite IH. destruct (r =? i); lia. }
  rewrite G. lia.
Qed.

(** For unique keys whose columns lie in [0, n), summing a row over the
    column range is summing over the stored entries of the row. *)
Lemma row_sum_over_entries (g : Z -> Z) (i n r c : Z) (es : jsmap (Z * Z) Z) :
  NoDup (map fst es) ->
  (forall row col value, In ((row, col), value) es -> 0 <= col < n) ->
  zsum (map (fun k => getElement (mkSparseMatrix r c es) i k * g k) (upto n)) =
  zsum (map (fun e => if fst (fst e) =? i then snd e * g (snd (fst e)) else 0)
          es).
Proof.
  induction es as [|[[rw cl] v] t IH]; intros Hnd Hrange.
  - simpl. apply zsum_map_zero.
  - inversion Hnd as [|? ? Hnotin Hnd']; subst.
    cbn [map]. rewrite zsum_cons. cbn [fst snd].
    rewrite <- IH; [|exact Hnd'|intros row col value Hin;
                      apply (Hrange row col value); right; exact Hin].
    rewrite (zsum_map_ext
      (fun k => getElement (mkSparseMatrix r c (((rw, cl), v) :: t)) i k * g k)
      (fun k => (if k =? cl then (if rw =? i then v * g cl else 0) else 0) +
                getElement (mkSparseMatrix r c t) i k * g k)).
    + rewrite zsum_map_add. f_equal.
      apply zsum_point; [apply upto_NoDup|].
      apply upto_In. apply (Hrange rw cl v). left. reflexivity.
    + intros k _.
      rewrite (getElement_cons (mkSparseMatrix r c (((rw, cl), v) :: t))
                 r c (rw, cl) v t i k eq_refl).
      unfold pair_eqb. cbn [fst snd].
      destruct (k =? cl) eqn:Ek, (i =? rw) eqn:Ei; cbn [andb];
        rewrite ?(Z.eqb_sym rw i), ?Ei; try lia.
      apply Z.eqb_eq in Ek, Ei. subst k i.
      rewrite (getElement_absent (mkSparseMatrix r c t) rw cl Hnotin). lia.
Qed.

Lemma sparse_dot_product_entry this other i j :
  unique_keys this -> cols_in_range this ->
  sparse_dot this other i j = product_entry this other i j.
Proof.
  intros Hu Hrange. rewrite sparse_dot_zsum, product_entry_zsum.
  symmetry. destruct this as [r c es]. cbn [elements cols] in *.
  apply (row_sum_over_entries (fun k => getElement other k j) i c r c es Hu).
  exact Hrange.
Qed.

(** ** The second implementation: multiply *)

Lemma Dsa_inner_get (es : jsmap (Z * Z) Z) row1 col1 value1 res r c :
  NoDup (map fst es) ->
  getElement
    (fold_left (fun result entry2 =>
       let '((row2, col2), value2) := entry2 in
       if col1 =? row2 then
         let newValue := getElement result row1 col2 + value1 * value2 in
         setElement result row1 col2 newValue
       else result) es res) r c =
  if row1 =? r
  then getElement res r c +
       value1 * match map_get (col1, c) es with Some v => v | None => 0 end
  else getElement res r c.
Proof.
  revert res. induction es as [|[[row2 col2] value2] t IH]; intros res Hnd.
  - simpl. destruct (row1 =? r); lia.
  - inversion Hnd as [|? ? Hnotin Hnd']; subst.
    cbn [fold_left]. rewrite (IH _ Hnd'). cbn [map_get key_eqb KeyEq_pair].
    unfold pair_eqb. cbn [fst snd].
    destruct (row1 =? r) eqn:Er.
    + apply Z.eqb_eq in Er. subst r.
      destruct (col1 =? row2) eqn:E1.
      * apply Z.eqb_eq in E1. subst row2. cbv zeta.
        rewrite getElement_setElement, Z.eqb_refl. cbn [andb].
        rewrite (Z.eqb_sym col2 c).
        destruct (c =? col2) eqn:E2; [|reflexivity].
        apply Z.eqb_eq in E2. subst c.
        rewrite (map_get_absent _ _ Hnotin). lia.
      * cbn [andb]. reflexivity.
    + destruct (col1 =? row2); [|reflexivity]. cbv zeta.
      rewrite getElement_setElement, Er. reflexivity.
Qed.

Lemma Dsa_outer_get (other : SparseMatrix) (es : jsmap (Z * Z) Z) res r c :
  unique_keys other ->
  getElement
    (fold_left (fun result entry1 =>
       let '((row1, col1), value1) := entry1 in
       fold_left (fun result entry2 =>
         let '((row2, col2), value2) := entry2 in
         if col1 =? row2 then
           let newValue := getElement result row1 col2 + value1 * value2 in
           setElement result row1 col2 newValue
         else result) (elements other) result) es res) r c =
  fold_left (fun acc entry =>
    let '((row1, col1), value1) := entry in
    if row1 =? r then acc + value1 * getElement other col1 c else acc)
    es (getElement res r c).
Proof.
  intros Hu. revert res.
  induction es as [|[[row1 col1] value1] t IH]; intros res.
  - reflexivity.
  - cbn [fold_left]. rewrite IH. f_equal.
    rewrite (Dsa_inner_get _ _ _ _ _ _ _ Hu), (getElement_value other).
    reflexivity.
Qed.

Lemma Dsa_multiply_invariant (P : SparseMatrix -> Prop) this other R :
  (forall row col value a, P a -> P (setElement a row col value)) ->
  P (mkSparseMatrix (rows this) (cols other) []) ->
  Dsa.multiply this other = Ok R -> P R.
Proof.
  intros Hset Hinit. unfold Dsa.multiply, Dsa.new_SparseMatrix.
  destruct (negb (cols this =? rows other)); [discriminate|].
  intros [= <-]. cbv zeta.
  generalize (mkSparseMatrix (rows this) (cols other) []) Hinit.
  induction (elements this) as [|[[row1 col1] value1] t IH]; intros res Hres.
  - exact Hres.
  - cbn [fold_left]. apply IH. clear IH. revert res Hres.
    induction (elements other) as [|[[row2 col2] value2] t' IH'];
      intros res Hres.
    + exact Hres.
    + cbn [fold_left]. apply IH'.
      destruct (col1 =? row2); [apply Hset|]; exact Hres.
Qed.

Lemma Dsa_multiply_facts (A B : SparseMatrix) :
  unique_keys B ->
  ((exists R, Dsa.multiply A B = Ok R) <-> cols A = rows B) /\
  (forall R, Dsa.multiply A B = Ok R ->
     rows R = rows A /\ cols R = cols B /\ wf_elements (elements R) /\
     (forall i j, getElement R i j = sparse_dot A B i j) /\
     (unique_keys A -> cols_in_range A ->
      forall i j, getElement R i j = product_entry A B i j)).
Proof.
  intros Hu. split.
  - unfold Dsa.multiply. destruct (cols A =? rows B) eqn:E; cbn [negb].
    + apply Z.eqb_eq in E. split; [intros _; exact E|].
      intros _. eexists. reflexivity.
    + apply Z.eqb_neq in E. split; [intros [R HR]; discriminate|].
      intros Heq. contradiction.
  - intros R HR.
    assert (Hget : forall i j, getElement R i j = sparse_dot A B i j).
    { intros i j. revert HR. unfold Dsa.multiply, Dsa.new_SparseMatrix.
      destruct (negb (cols A =? rows B)); [discriminate|].
      intros [= <-]. cbv zeta. rewrite (Dsa_outer_get B _ _ i j Hu).
      reflexivity. }
    split; [|split; [|split; [|split]]].
    + apply (Dsa_multiply_invariant (fun a => rows a = rows A) A B R);
        [|reflexivity|exact HR].
      intros. rewrite rows_setElement. assumption.
    + apply (Dsa_multiply_invariant (fun a => cols a = cols B) A B R);
        [|reflexivity|exact HR].
      intros. rewrite cols_setElement. assumption.
    + apply (Dsa_multiply_invariant (fun a => wf_elements (elements a)) A B R);
        [|apply wf_elements_nil|exact HR].
      intros. apply wf_setElement. assumption.
    + exact Hget.
    + intros HuA Hrange i j. rewrite Hget.
      apply sparse_dot_product_entry; assumption.
Qed.

(** multiply of [main.js] returns exactly when [this.cols = other.rows];
    every coordinate reads the sum, in map order, over the stored entries of
    the row, and no zero is stored.  When the columns of [this] lie in range
    and the values are safe integers whose products of magnitudes sum up to
    at most 2^53 - 1 in every cell, so that every step of the program is
    exact, this is the entry of the matrix product, the sum over [k] of
    [this[i][k] * other[k][j]]. *)
Theorem Dsa_multiply_product (A B : SparseMatrix) :
  unique_keys B ->
  ((exists R, Dsa.multiply A B = Ok R) <-> cols A = rows B) /\
  (forall R, Dsa.multiply A B = Ok R ->
     rows R = rows A /\ cols R = cols B /\ wf_elements (elements R) /\
     (forall i j, getElement R i j = sparse_dot A B i j) /\
     (unique_keys A -> cols_in_range A ->
      safe_values A -> safe_values B ->
      (forall i j, product_entry (abs_values A) (abs_values B) i j <=
                   MAX_SAFE_INTEGER) ->
      forall i j, getElement R i j = product_entry A B i j)).
Proof.
  intros Hu. destruct (Dsa_multiply_facts A B Hu) as [Hiff Hall].
  split; [exact Hiff|]. intros R HR.
  destruct (Hall R HR) as (Hr & Hc & Hwf & Hdot & Hprod).
  repeat (split; [assumption|]).
  intros HuA Hrange _ _ _. apply Hprod; assumption.
Qed.

Lemma values_bounded_cancelA :
  Forall (fun e => Z.abs (snd e) <= 1) (elements cancelA).
Proof. repeat constructor; simpl; lia. Qed.

Lemma values_bounded_cancelB :
  Forall (fun e => Z.abs (snd e) <= 1) (elements cancelB).
Proof. repeat constructor; simpl; lia. Qed.

Lemma cols_in_range_cancelA : cols_in_range cancelA.
Proof.
  intros row col value Hin. simpl in Hin.
  destruct Hin as [[= <- <- <-]|[[= <- <- <-]|[]]]; simpl; lia.
Qed.

Lemma Dsa_multiply_product_witness :
  ((exists R, Dsa.multiply cancelA cancelB = Ok R) <->
   cols cancelA = rows cancelB) /\
  getElement (mkSparseMatrix 1 1 []) 0 0 = product_entry cancelA cancelB 0 0.
Proof.
  destruct (Dsa_multiply_product cancelA cancelB
              (unique_keys_matrix_of _ _ _)) as [Hiff Hall].
  split; [exact Hiff|].
  apply (Hall (mkSparseMatrix 1 1 [])).
  - reflexivity.
  - apply unique_keys_matrix_of.
  - apply cols_in_range_cancelA.
  - apply (safe_values_bounded cancelA 1); [unfold MAX_SAFE_INTEGER; lia|].
    apply values_bounded_cancelA.
  - apply (safe_values_bounded cancelB 1); [unfold MAX_SAFE_INTEGER; lia|].
    apply values_bounded_cancelB.
  - intros i j.
    pose proof (product_entry_bounded (abs_values cancelA) (abs_values cancelB)
                  1 1 i j ltac:(lia) ltac:(lia)
                  (values_bounded_abs _ _ values_bounded_cancelA)
                  (values_bounded_abs _ _ values_bounded_cancelB)) as Hb.
    change (Z.of_nat (List.length (upto (cols (abs_values cancelA)))))
      with 2 in Hb.
    unfold MAX_SAFE_INTEGER. lia.
Defined.

(** ** multiply: what the loops compute *)

Lemma lookup2_step (idx : jsmap Z (jsmap Z Z)) row col value r c :
  lookup2
    (let columnIndexedOther :=
       if negb (map_has col idx) then map_set col [] idx else idx in
     match map_get col columnIndexedOther with
     | Some column =>
         map_set col (map_set row value column) columnIndexedOther
     | None => columnIndexedOther
     end) r c =
  if pair_eqb (r, c) (row, col) then Some value else lookup2 idx r c.
Proof.
  unfold pair_eqb, lookup2, map_has, jsmap in *. cbn [fst snd]. cbv zeta.
  destruct (map_get col idx) as [column|] eqn:Hcol; cbn [negb].
  - rewrite ?Hcol. destruct (c =? col) eqn:Ec.
    + apply Z.eqb_eq in Ec. subst c. rewrite map_get_set_same, ?Hcol.
      destruct (r =? row) eqn:Er; cbn [andb].
      * apply Z.eqb_eq in Er. subst r. apply map_get_set_same.
      * apply map_get_set_other. intros ->. rewrite Z.eqb_refl in Er.
        discriminate.
    + rewrite andb_false_r. rewrite map_get_set_other; [reflexivity|].
      intros ->. rewrite Z.eqb_refl in Ec. discriminate.
  - rewrite map_get_set_same. destruct (c =? col) eqn:Ec.
    + apply Z.eqb_eq in Ec. subst c. rewrite map_get_set_same, ?Hcol.
      cbn [map_set map_get key_eqb KeyEq_Z].
      destruct (r =? row); reflexivity.
    + rewrite andb_false_r.
      assert (Hne : col <> c)
        by (intros ->; rewrite Z.eqb_refl in Ec; discriminate).
      rewrite !map_get_set_other by exact Hne. reflexivity.
Qed.

Lemma lookup2_fold (es : jsmap (Z * Z) Z) (idx0 : jsmap Z (jsmap Z Z)) r c :
  NoDup (map fst es) ->
  lookup2
    (fold_left (fun columnIndexedOther entry =>
       let '((row, col), value) := entry in
       let columnIndexedOther :=
         if negb (map_has col columnIndexedOther)
         then map_set col [] columnIndexedOther
         else columnIndexedOther in
       match map_get col columnIndexedOther with
       | Some column =>
           map_set col (map_set row value column) columnIndexedOther
       | None => columnIndexedOther
       end) es idx0) r c =
  match map_get (r, c) es with
  | Some v => Some v
  | None => lookup2 idx0 r c
  end.
Proof.
  revert idx0. induction es as [|[[row col] value] t IH]; intros idx0 Hnd.
  - reflexivity.
  - inversion Hnd as [|? ? Hnotin Hnd']; subst.
    cbn [fold_left]. rewrite (IH _ Hnd'), lookup2_step.
    cbn [map_get key_eqb KeyEq_pair].
    destruct (pair_eqb (r, c) (row, col)) eqn:E; [|reflexivity].
    apply pair_eqb_spec in E. injection E as -> ->.
    rewrite (map_get_absent _ _ Hnotin). reflexivity.
Qed.

(** The column-indexed view answers like the entry map of [other]. *)
Lemma column_index_lookup other r c :
  unique_keys other ->
  lookup2 (build_column_index other) r c = map_get (r, c) (elements other).
Proof.
  intros Hu. unfold build_column_index. rewrite (lookup2_fold _ _ _ _ Hu).
  destruct (map_get (r, c) (elements other)); reflexivity.
Qed.

Lemma getElement_multiply_cell idx row1 col1 value1 col2 res r c :
  getElement (multiply_cell idx row1 col1 value1 col2 res) r c =
  if (row1 =? r) && (col2 =? c) then
    match lookup2 idx col1 c with
    | Some value2 => guarded_add (getElement res r c) (value1 * value2)
    | None => getElement res r c
    end
  else getElement res r c.
Proof.
  unfold multiply_cell, lookup2, guarded_add.
  destruct ((row1 =? r) && (col2 =? c)) eqn:E.
  - apply andb_true_iff in E. rewrite !Z.eqb_eq in E. destruct E as [-> ->].
    destruct (map_get c idx) as [column|]; [|reflexivity].
    destruct (map_get col1 column) as [value2|]; [|reflexivity].
    cbv zeta. destruct (negb (_ =? 0)); [|reflexivity].
    apply getElement_setElement_same.
  - destruct (map_get col2 idx) as [column|]; [|reflexivity].
    destruct (map_get col1 column) as [value2|]; [|reflexivity].
    cbv zeta. destruct (negb (_ =? 0)); [|reflexivity].
    rewrite getElement_setElement, E. reflexivity.
Qed.

Lemma existsb_eqb_upto (n c : Z) : existsb (Z.eqb c) (upto n) = in_range c n.
Proof.
  apply eq_true_iff_eq. rewrite existsb_exists, in_range_spec. split.
  - intros [i [Hin Hi]]. apply Z.eqb_eq in Hi. subst i.
    apply upto_In. exact Hin.
  - intros Hc. exists c. split; [apply upto_In; exact Hc|apply Z.eqb_refl].
Qed.

Lemma getElement_multiply_row idx row1 col1 value1 (l : list Z) res r c :
  NoDup l ->
  getElement
    (fold_left (fun acc i => multiply_cell idx row1 col1 value1 i acc) l res)
    r c =
  if (row1 =? r) && existsb (Z.eqb c) l then
    match lookup2 idx col1 c with
    | Some value2 => guarded_add (getElement res r c) (value1 * value2)
    | None => getElement res r c
    end
  else getElement res r c.
Proof.
  revert res. induction l as [|i t IH]; intros res Hnd.
  - simpl. rewrite andb_false_r. reflexivity.
  - inversion Hnd as [|? ? Hnotin Hnd']; subst.
    cbn [fold_left existsb]. rewrite (IH _ Hnd'), getElement_multiply_cell.
    destruct (row1 =? r); cbn [andb]; [|reflexivity].
    rewrite (Z.eqb_sym i c). destruct (c =? i) eqn:E; cbn [orb].
    + apply Z.eqb_eq in E. subst i.
      assert (Hex : existsb (Z.eqb c) t = false).
      { destruct (existsb (Z.eqb c) t) eqn:Ex; [|reflexivity].
        apply existsb_exists in Ex. destruct Ex as [y [Hy Hcy]].
        apply Z.eqb_eq in Hcy. subst y. contradiction. }
      rewrite Hex. reflexivity.
    + reflexivity.
Qed.

Lemma getElement_multiply_matrix this other res r c :
  unique_keys other ->
  getElement (multiply_matrix this other res) r c =
  fold_left (fun acc entry =>
    let '((row1, col1), value1) := entry in
    if (row1 =? r) && in_range c (cols other) then
      match map_get (col1, c) (elements other) with
      | Some value2 => guarded_add acc (value1 * value2)
      | None => acc
      end
    else acc) (elements this) (getElement res r c).
Proof.
  intros Hu. unfold multiply_matrix. revert res.
  induction (elements this) as [|[[row1 col1] value1] t IH]; intros res.
  - reflexivity.
  - cbn [fold_left]. rewrite IH. f_equal. unfold for_loop.
    rewrite (getElement_multiply_row _ _ _ _ _ _ _ _ (upto_NoDup _)).
    rewrite existsb_eqb_upto, (column_index_lookup _ _ _ Hu). reflexivity.
Qed.

Lemma multiply0_eq this other :
  multiply0 this other =
  if negb (cols this =? rows other) then Throw multiply_mismatch
  else if (rows this =? 0) || (cols other =? 0)
  then Throw (lit "Invalid input")
  else Ok (multiply_matrix this other
             (mkSparseMatrix (rows this) (cols other) [])).
Proof.
  unfold multiply0. rewrite multiply_eq.
  destruct (negb (cols this =? rows other)); [reflexivity|].
  destruct ((rows this =? 0) || (cols other =? 0)); reflexivity.
Qed.

Lemma multiply_matrix_invariant (P : SparseMatrix -> Prop) this other acc :
  (forall row col value a, P a -> P (setElement a row col value)) ->
  P acc -> P (multiply_matrix this other acc).
Proof.
  intros Hset. unfold multiply_matrix. revert acc.
  induction (elements this) as [|[[row1 col1] value1] t IH]; intros acc Hacc.
  - exact Hacc.
  - cbn [fold_left]. apply IH. unfold for_loop.
    apply (invariant_fold P
             (multiply_cell (build_column_index other) row1 col1 value1));
      [|exact Hacc].
    intros col2 a Ha. unfold multiply_cell.
    destruct (map_get col2 _) as [column|]; [|exact Ha].
    destruct (map_get col1 column) as [value2|]; [|exact Ha].
    cbv zeta. destruct (negb (_ =? 0)); [|exact Ha].
    apply Hset. exact Ha.
Qed.

Lemma multiply0_inv this other R :
  unique_keys other -> multiply0 this other = Ok R ->
  rows R = rows this /\ cols R = cols other /\ wf_elements (elements R) /\
  forall i j, getElement R i j =
    if in_range j (cols other) then guarded_dot this other i j else 0.
Proof.
  intros Hu. rewrite multiply0_eq.
  destruct (negb (cols this =? rows other)); [discriminate|].
  destruct ((rows this =? 0) || (cols other =? 0)); [discriminate|].
  intros [= <-]. split; [|split; [|split]].
  - apply (multiply_matrix_invariant (fun a => rows a = rows this));
      [|reflexivity]. intros. rewrite rows_setElement. assumption.
  - apply (multiply_matrix_invariant (fun a => cols a = cols other));
      [|reflexivity]. intros. rewrite cols_setElement. assumption.
  - apply wf_multiply_matrix. apply wf_elements_nil.
  - intros i j. rewrite (getElement_multiply_matrix _ _ _ _ _ Hu).
    rewrite getElement_empty. unfold guarded_dot.
    destruct (in_range j (cols other)).
    + generalize 0.
      induction (elements this) as [|[[row1 col1] value1] t IH]; intros a.
      * reflexivity.
      * cbn [fold_left]. rewrite andb_true_r. apply IH.
    + generalize (elements this). intros es.
      induction es as [|[[row1 col1] value1] t IH]; [reflexivity|].
      cbn [fold_left]. rewrite andb_false_r. exact IH.
Qed.

(** What multiply returns: at every coordinate with [0 <= j < other.cols]
    the guarded accumulation of the products met in map order, where a step
    that would bring the value to zero is skipped; zero at every other
    coordinate.  The result has the dimensions [this.rows x other.cols] and
    stores no zero. *)
Theorem multiply_accumulates_guarded (A B R : SparseMatrix) :
  unique_keys B -> multiply0 A B = Ok R ->
  rows R = rows A /\ cols R = cols B /\ wf_elements (elements R) /\
  forall i j, getElement R i j =
    if in_range j (cols B) then guarded_dot A B i j else 0.
Proof. apply multiply0_inv. Qed.

Lemma multiply_accumulates_guarded_witness :
  rows (mkSparseMatrix 1 1 [((0,0),1)]) = rows cancelA /\
  cols (mkSparseMatrix 1 1 [((0,0),1)]) = cols cancelB /\
  wf_elements (elements (mkSparseMatrix 1 1 [((0,0),1)])) /\
  forall i j, getElement (mkSparseMatrix 1 1 [((0,0),1)]) i j =
    if in_range j (cols cancelB) then guarded_dot cancelA cancelB i j else 0.
Proof.
  apply (multiply_accumulates_guarded cancelA cancelB).
  - apply unique_keys_matrix_of.
  - reflexivity.
Defined.

Lemma guarded_fold_positive (other : SparseMatrix) (i j : Z)
    (es : jsmap (Z * Z) Z) (a : Z) :
  all_positive other -> Forall (fun e => 0 < snd e) es -> 0 <= a ->
  fold_left (fun acc entry =>
    let '((row1, col1), value1) := entry in
    if row1 =? i then
      match map_get (col1, j) (elements other) with
      | Some value2 => guarded_add acc (value1 * value2)
      | None => acc
      end
    else acc) es a =
  fold_left (fun acc entry =>
    let '((row1, col1), value1) := entry in
    if row1 =? i then acc + value1 * getElement other col1 j else acc) es a.
Proof.
  intros Hpos. revert a. induction es as [|[[row1 col1] value1] t IH];
    intros a Hes Ha.
  - reflexivity.
  - inversion Hes as [|? ? Hv Ht]; subst. simpl in Hv. cbn [fold_left].
    rewrite (getElement_value other).
    destruct (row1 =? i); [|apply IH; assumption].
    destruct (map_get (col1, j) (elements other)) as [value2|] eqn:Hg.
    + apply map_get_In in Hg. unfold all_positive in Hpos.
      rewrite Forall_forall in Hpos. specialize (Hpos _ Hg). simpl in Hpos.
      assert (Hprod : 0 < value1 * value2) by (apply Z.mul_pos_pos; assumption).
      unfold guarded_add.
      assert (Hnz : (a + value1 * value2 =? 0) = false)
        by (apply Z.eqb_neq; lia).
      rewrite Hnz. cbn [negb]. apply IH; [exact Ht|lia].
    + replace (a + value1 * 0) with a by lia. apply IH; assumption.
Qed.

(** When every stored value of both operands is positive, no accumulation
    can return to zero, and when moreover the values are safe integers and
    no entry of the product exceeds 2^53 - 1, so that every step of the
    program is exact, multiply computes the matrix product on the columns
    of [other]. *)
Theorem multiply_positive_is_product (A B R : SparseMatrix) :
  unique_keys A -> unique_keys B -> cols_in_range A ->
  all_positive A -> all_positive B ->
  safe_values A -> safe_values B ->
  (forall i j, product_entry A B i j <= MAX_SAFE_INTEGER) ->
  multiply0 A B = Ok R ->
  forall i j, 0 <= j < cols B -> getElement R i j = product_entry A B i j.
Proof.
  intros HuA HuB Hrange HpA HpB _ _ _ HR i j Hj.
  destruct (multiply0_inv A B R HuB HR) as (_ & _ & _ & Hget).
  rewrite Hget. apply in_range_spec in Hj. rewrite Hj.
  rewrite <- (sparse_dot_product_entry A B i j HuA Hrange).
  unfold guarded_dot, sparse_dot.
  apply guarded_fold_positive; [exact HpB|exact HpA|lia].
Qed.

Lemma cols_in_range_exA : cols_in_range exA.
Proof.
  intros row col value Hin. simpl in Hin.
  destruct Hin as [[= <- <- <-]|[[= <- <- <-]|[]]]; simpl; lia.
Qed.

Lemma multiply_positive_is_product_witness :
  getElement (mkSparseMatrix 2 2 [((0,0),3); ((0,1),4)]) 0 1 =
  product_entry exA exB 0 1.
Proof.
  apply (multiply_positive_is_product exA exB).
  - apply unique_keys_matrix_of.
  - apply unique_keys_matrix_of.
  - apply cols_in_range_exA.
  - repeat constructor.
  - repeat constructor.
  - apply (safe_values_bounded exA 4); [unfold MAX_SAFE_INTEGER; lia|].
    apply values_bounded_exA.
  - apply (safe_values_bounded exB 4); [unfold MAX_SAFE_INTEGER; lia|].
    apply values_bounded_exB.
  - intros i j.
    pose proof (product_entry_bounded exA exB 4 4 i j ltac:(lia) ltac:(lia)
                  values_bounded_exA values_bounded_exB) as Hb.
    change (Z.of_nat (List.length (upto (cols exA)))) with 2 in Hb.
    unfold MAX_SAFE_INTEGER. lia.
  - reflexivity.
  - simpl. lia.
Defined.

Lemma guarded_fold_support (other : SparseMatrix) (i j : Z)
    (es : jsmap (Z * Z) Z) (a : Z) :
  fold_left (fun acc entry =>
    let '((row1, col1), value1) := entry in
    if row1 =? i then
      match map_get (col1, j) (elements other) with
      | Some value2 => guarded_add acc (value1 * value2)
      | None => acc
      end
    else acc) es a <> a ->
  exists k v1 v2, In ((i, k), v1) es /\ In ((k, j), v2) (elements other).
Proof.
  revert a. induction es as [|[[row1 col1] value1] t IH]; intros a Hne.
  - simpl in Hne. contradiction.
  - cbn [fold_left] in Hne.
    destruct (row1 =? i) eqn:Er.
    + apply Z.eqb_eq in Er. subst row1.
      destruct (map_get (col1, j) (elements other)) as [value2|] eqn:Hg.
      * apply map_get_In in Hg. exists col1, value1, value2.
        split; [left; reflexivity|exact Hg].
      * destruct (IH a Hne) as (k & v1 & v2 & H1 & H2).
        exists k, v1, v2. split; [right; exact H1|exact H2].
    + destruct (IH a Hne) as (k & v1 & v2 & H1 & H2).
      exists k, v1, v2. split; [right; exact H1|exact H2].
Qed.

(** Every entry that multiply stores has a non-zero value, a column in
    [0, other.cols), and comes from an entry of [this] in its row and an
    entry of [other] in its column that meet in some [k]. *)
Theorem multiply_stored_entries (A B R : SparseMatrix) :
  unique_keys B -> multiply0 A B = Ok R ->
  forall i j v, In ((i, j), v) (elements R) ->
    v <> 0 /\ 0 <= j < cols B /\
    exists k v1 v2, In ((i, k), v1) (elements A) /\
                    In ((k, j), v2) (elements B).
Proof.
  intros Hu HR i j v Hin.
  destruct (multiply0_inv A B R Hu HR) as (_ & _ & Hwf & Hget).
  apply (In_elements_getElement R i j v Hwf) in Hin.
  destruct Hin as [Hv Hne]. rewrite Hget in Hv.
  split; [exact Hne|].
  destruct (in_range j (cols B)) eqn:Ej; [|congruence].
  split; [apply in_range_spec; exact Ej|].
  apply (guarded_fold_support B i j (elements A) 0).
  unfold guarded_dot in Hv. rewrite Hv. exact Hne.
Qed.

Lemma multiply_stored_entries_witness :
  4 <> 0 /\ 0 <= 1 < cols exB /\
  exists k v1 v2, In ((0, k), v1) (elements exA) /\
                  In ((k, 1), v2) (elements exB).
Proof.
  apply (multiply_stored_entries exA exB
           (mkSparseMatrix 2 2 [((0,0),3); ((0,1),4)])).
  - apply unique_keys_matrix_of.
  - reflexivity.
  - right. left. reflexivity.
Defined.

(** ** add and subtract: further behaviour *)














Lemma fold_left_ext_in {A S : Type} (F G : S -> A -> S) (l : list A) :
  (forall x, In x l -> forall a, F a x = G a x) ->
  forall a, fold_left F l a = fold_left G l a.
Proof.
  induction l as [|x t IH]; intros Hext a; [reflexivity|].
  cbn [fold_left]. rewrite (Hext x (or_introl eq_refl)).
  apply IH. intros y Hy. apply Hext. right. exact Hy.
Qed.

Lemma dense_scan_ext_range f g m n acc :
  (forall r c, 0 <= r < m -> 0 <= c < n -> f r c = g r c) ->
  dense_scan f m n acc = dense_scan g m n acc.
Proof.
  intros Hfg. unfold dense_scan, for_loop.
  apply fold_left_ext_in. intros row Hrow a.
  apply fold_left_ext_in. intros col Hcol a'.
  unfold scan_cell. apply upto_In in Hrow, Hcol.
  rewrite (Hfg row col Hrow Hcol). reflexivity.
Qed.

(** add and subtract see their operands only through [getElement] on the
    scanned range: operands that read alike on [0..rows] x [0..cols] give
    the same sum, and operands that read alike on [0, rows) x [0, cols) the
    same difference, entry order included.  Entries stored elsewhere and
    the insertion order of the operands have no influence. *)
Theorem add_subtract_depend_on_scanned_values (A A' B B' : SparseMatrix) :
  rows A = rows A' -> cols A = cols A' ->
  rows B = rows B' -> cols B = cols B' ->
  ((forall r c, 0 <= r <= rows A -> 0 <= c <= cols A ->
      getElement A r c = getElement A' r c /\
      getElement B r c = getElement B' r c) ->
   add A B = add A' B') /\
  ((forall r c, 0 <= r < rows A -> 0 <= c < cols A ->
      getElement A r c = getElement A' r c /\
      getElement B r c = getElement B' r c) ->
   subtract A B = subtract A' B').
Proof.
  intros HrA HcA HrB HcB. split; intros Hsame.
  - rewrite !add_eq, <- HrA, <- HcA, <- HrB, <- HcB.
    destruct (negb (rows A =? rows B) || negb (cols A =? cols B));
      [reflexivity|].
    destruct ((rows A =? 0) || (cols A =? 0)); [reflexivity|].
    f_equal. apply dense_scan_ext_range. intros r c Hr Hc.
    destruct (Hsame r c) as [-> ->]; [lia|lia|reflexivity].
  - rewrite !subtract_eq, <- HrA, <- HcA, <- HrB, <- HcB.
    destruct (negb (rows A =? rows B) || negb (cols A =? cols B));
      [reflexivity|].
    destruct ((rows A =? 0) || (cols A =? 0)); [reflexivity|].
    f_equal. apply dense_scan_ext_range. intros r c Hr Hc.
    destruct (Hsame r c) as [-> ->]; [lia|lia|reflexivity].
Qed.

Lemma add_subtract_depend_on_scanned_values_witness :
  subtract edgeA edgeB = subtract (matrix_of 2 2 [(0,0,1)]) edgeB.
Proof.
  apply (add_subtract_depend_on_scanned_values edgeA (matrix_of 2 2 [(0,0,1)])
           edgeB edgeB); try reflexivity.
  intros r c Hr Hc. simpl in Hr, Hc.
  assert (Hcases : (r = 0 \/ r = 1) /\ (c = 0 \/ c = 1)) by lia.
  destruct Hcases as [[-> | ->] [-> | ->]]; split; reflexivity.
Defined.

(** ** The order in which add and subtract store their entries *)

Lemma scan_row_elements (f : Z -> Z -> Z) (row : Z) (l : list Z) acc :
  NoDup l ->
  (forall col, In col l -> ~ In (row, col) (map fst (elements acc))) ->
  fold_left (fun a col => scan_cell f row col a) l acc =
  mkSparseMatrix (rows acc) (cols acc)
    (elements acc ++
     flat_map (fun col =>
       if negb (f row col =? 0) then [((row, col), f row col)] else []) l).
Proof.
  revert acc. induction l as [|col t IH]; intros acc Hnd Hfresh.
  - simpl. rewrite app_nil_r. destruct acc; reflexivity.
  - inversion Hnd as [|? ? Hcol Hnd']; subst. cbn [fold_left flat_map].
    unfold scan_cell at 2. destruct (negb (f row col =? 0)) eqn:E.
    + unfold setElement. rewrite E. rewrite map_set_absent
        by (apply map_get_absent; apply Hfresh; left; reflexivity).
      rewrite IH; [|exact Hnd'|].
      * cbn [rows cols elements]. rewrite <- app_assoc. reflexivity.
      * intros col' Hin. cbn [elements]. rewrite map_app, in_app_iff.
        intros [Hk|[Hk|[]]].
        -- apply (Hfresh col' (or_intror Hin)). exact Hk.
        -- injection Hk as ->. contradiction.
    + cbn [app]. apply IH; [exact Hnd'|].
      intros col' Hin. apply Hfresh. right. exact Hin.
Qed.

Lemma scan_row_keys (f : Z -> Z -> Z) (row : Z) (l : list Z) (k : Z * Z) :
  In k (map fst (flat_map (fun col =>
       if negb (f row col =? 0) then [((row, col), f row col)] else []) l)) ->
  fst k = row /\ In (snd k) l.
Proof.
  intros Hin. apply in_map_iff in Hin. destruct Hin as ([k' v] & <- & Hin).
  apply in_flat_map in Hin. destruct Hin as (col & Hcol & Hin).
  destruct (negb (f row col =? 0)); [|contradiction].
  destruct Hin as [[= <- <-]|[]]. split; [reflexivity|exact Hcol].
Qed.

Lemma dense_scan_elements f m n r c :
  dense_scan f m n (mkSparseMatrix r c []) =
  mkSparseMatrix r c (dense_entries f m n).
Proof.
  unfold dense_scan, for_loop, dense_entries.
  assert (G : forall L acc, NoDup L ->
    (forall row col, In row L -> ~ In (row, col) (map fst (elements acc))) ->
    fold_left (fun a row =>
      fold_left (fun a' col => scan_cell f row col a') (upto n) a) L acc =
    mkSparseMatrix (rows acc) (cols acc)
      (elements acc ++
       flat_map (fun row => flat_map (fun col =>
         if negb (f row col =? 0) then [((row, col), f row col)] else [])
         (upto n)) L)).
  { induction L as [|row T IH]; intros acc Hnd Hfresh.
    - simpl. rewrite app_nil_r. destruct acc; reflexivity.
    - inversion Hnd as [|? ? Hrow Hnd']; subst. cbn [fold_left flat_map].
      rewrite scan_row_elements;
        [|apply upto_NoDup|intros col _; apply Hfresh; left; reflexivity].
      rewrite IH; [|exact Hnd'|].
      + cbn [rows cols elements]. rewrite <- app_assoc. reflexivity.
      + intros row' col Hin. cbn [elements]. rewrite map_app, in_app_iff.
        intros [Hk|Hk].
        * apply (Hfresh row' col (or_intror Hin)). exact Hk.
        * apply scan_row_keys in Hk. cbn [fst] in Hk.
          destruct Hk as [-> _]. contradiction. }
  rewrite G; [reflexivity|apply upto_NoDup|intros row col _ []].
Qed.

Lemma StronglySorted_app {A : Type} (R : A -> A -> Prop) (l1 l2 : list A) :
  StronglySorted R l1 -> StronglySorted R l2 ->
  (forall a b, In a l1 -> In b l2 -> R a b) ->
  StronglySorted R (l1 ++ l2).
Proof.
  induction l1 as [|x t IH]; intros H1 H2 H12; [exact H2|].
  inversion H1 as [|? ? Ht Hx]; subst. cbn [app]. constructor.
  - apply IH; [exact Ht|exact H2|].
    intros a b Ha Hb. apply H12; [right; exact Ha|exact Hb].
  - apply Forall_app. split; [exact Hx|].
    apply Forall_forall. intros b Hb. apply H12; [left; reflexivity|exact Hb].
Qed.

Lemma seq_sorted (s k : nat) : StronglySorted lt (seq s k).
Proof.
  revert s. induction k as [|k IH]; intros s; cbn [seq]; constructor.
  - apply IH.
  - apply Forall_forall. intros x Hx. apply in_seq in Hx. lia.
Qed.

Lemma upto_sorted (n : Z) : StronglySorted Z.lt (upto n).
Proof.
  unfold upto. generalize (seq_sorted 0 (Z.to_nat n)).
  induction (seq 0 (Z.to_nat n)) as [|x t IH]; intros Hs; cbn [map];
    constructor; inversion Hs as [|? ? Ht Hx]; subst.
  - apply IH. exact Ht.
  - apply Forall_forall. intros y Hy. apply in_map_iff in Hy.
    destruct Hy as (z & <- & Hz). rewrite Forall_forall in Hx.
    specialize (Hx z Hz). lia.
Qed.

Lemma flat_map_sorted {A B : Type} (R : A -> A -> Prop) (S : B -> B -> Prop)
    (g : A -> list B) (l : list A) :
  StronglySorted R l ->
  (forall x, In x l -> StronglySorted S (g x)) ->
  (forall x y a b, In x l -> In y l -> R x y -> In a (g x) -> In b (g y) ->
     S a b) ->
  StronglySorted S (flat_map g l).
Proof.
  induction l as [|x t IH]; intros Hs Hg Hxy; cbn [flat_map]; [constructor|].
  inversion Hs as [|? ? Ht Hx]; subst. apply StronglySorted_app.
  - apply Hg. left. reflexivity.
  - apply IH; [exact Ht| |].
    + intros y Hy. apply Hg. right. exact Hy.
    + intros y z a b Hy Hz. apply Hxy; right; assumption.
  - intros a b Ha Hb. apply in_flat_map in Hb. destruct Hb as (y & Hy & Hb).
    rewrite Forall_forall in Hx.
    apply (Hxy x y a b); [left; reflexivity|right; exact Hy|apply Hx; exact Hy
                         |exact Ha|exact Hb].
Qed.

Lemma dense_entries_sorted f m n :
  StronglySorted (fun a b => key_lt (fst a) (fst b)) (dense_entries f m n).
Proof.
  unfold dense_entries.
  apply (flat_map_sorted Z.lt); [apply upto_sorted| |].
  - intros row _.
    apply (flat_map_sorted Z.lt); [apply upto_sorted| |].
    + intros col _. destruct (negb (f row col =? 0));
        repeat constructor.
    + intros x y a b _ _ Hxy Ha Hb.
      destruct (negb (f row x =? 0)); [|contradiction].
      destruct (negb (f row y =? 0)); [|contradiction].
      destruct Ha as [<-|[]]. destruct Hb as [<-|[]].
      right. cbn [fst snd]. split; [reflexivity|exact Hxy].
  - intros x y a b _ _ Hxy Ha Hb.
    apply in_flat_map in Ha. destruct Ha as (ca & _ & Ha).
    apply in_flat_map in Hb. destruct Hb as (cb & _ & Hb).
    destruct (negb (f x ca =? 0)); [|contradiction].
    destruct (negb (f y cb =? 0)); [|contradiction].
    destruct Ha as [<-|[]]. destruct Hb as [<-|[]].
    left. cbn [fst]. exact Hxy.
Qed.

(** add and subtract store their entries in row-major order, whatever the
    insertion order of the operands: the entry list of a returned sum is
    the list of non-zero sums over [0..rows] x [0..cols] row by row, and it
    is strictly sorted by row, then column; likewise for a difference over
    [0, rows) x [0, cols). *)
Theorem add_subtract_row_major (A B : SparseMatrix) :
  (forall S, add A B = Ok S ->
     elements S =
       dense_entries (fun r c => getElement A r c + getElement B r c)
         (rows A + 1) (cols A + 1) /\
     StronglySorted (fun a b => key_lt (fst a) (fst b)) (elements S)) /\
  (forall D, subtract A B = Ok D ->
     elements D =
       dense_entries (fun r c => getElement A r c - getElement B r c)
         (rows A) (cols A) /\
     StronglySorted (fun a b => key_lt (fst a) (fst b)) (elements D)).
Proof.
  split.
  - intros S. rewrite add_eq.
    destruct (negb (rows A =? rows B) || negb (cols A =? cols B));
      [discriminate|].
    destruct ((rows A =? 0) || (cols A =? 0)); [discriminate|].
    rewrite dense_scan_elements. intros [= <-]. cbn [elements].
    split; [reflexivity|apply dense_entries_sorted].
  - intros D. rewrite subtract_eq.
    destruct (negb (rows A =? rows B) || negb (cols A =? cols B));
      [discriminate|].
    destruct ((rows A =? 0) || (cols A =? 0)); [discriminate|].
    rewrite dense_scan_elements. intros [= <-]. cbn [elements].
    split; [reflexivity|apply dense_entries_sorted].
Qed.



(** ** Loading texts *)

Lemma load_lines_app this l1 l2 :
  load_lines this (l1 ++ l2) =
  bind (load_lines this l1) (fun m => load_lines m l2).
Proof.
  revert this. induction l1 as [|raw rest IH]; intros this.
  - reflexivity.
  - cbn [app load_lines]. destruct (load_line this raw) as [m|msg]; cbn [bind].
    + apply IH.
    + reflexivity.
Qed.

(** Whatever text it is given, a matrix returned by [loadFromFile] has
    unique keys and stores no zero. *)
Theorem loadFromFile_keeps_invariants (text : jsstring) (R : SparseMatrix) :
  loadFromFile text = Some (Ok R) -> wf_elements (elements R).
Proof. apply wf_loadFromFile. Qed.

Lemma loadFromFile_keeps_invariants_witness :
  wf_elements (elements (matrix_of 3 3 [(0,0,5); (1,2,0); (0,0,7)])).
Proof.
  apply (loadFromFile_keeps_invariants
           (matrix_text 3 3 [(0,0,5); (1,2,0); (0,0,7)])).
  apply loadFromFile_plain_text.
Defined.

(** The first malformed element line aborts loading with that line's error:
    the lines after it are not examined and no matrix is returned, although
    the lines before it were accepted. *)
Theorem loadFromFile_fails_fast (r c : Z) (es : list (Z * Z * Z))
    (bad tail : jsstring) (msg : jsstring) :
  no_char nl bad -> trim bad <> [] ->
  parse_element (trim bad) = Throw msg ->
  tail = [] \/ (exists rest, tail = nl :: rest) ->
  loadFromFile (matrix_text r c es ++ nl :: bad ++ tail) = Some (Throw msg).
Proof.
  intros Hnl Hne Hbad Htail.
  assert (Hsplit : exists more, split nl (bad ++ tail) = bad :: more).
  { destruct Htail as [->|[rest ->]].
    - rewrite app_nil_r, (split_no_char _ _ Hnl). exists []. reflexivity.
    - rewrite (split_app_sep _ _ _ Hnl). eexists. reflexivity. }
  destruct Hsplit as [more Hmore].
  rewrite (loadFromFile_lines _ r c
             (map (entry_of_text_with plain_decimal) es ++ bad :: more)).
  - rewrite load_lines_app, load_lines_entries. cbn [bind load_lines].
    unfold load_line. destruct (trim bad) as [|x t] eqn:E; [contradiction|].
    rewrite Hbad. reflexivity.
  - rewrite split_matrix_text_then, Hmore. reflexivity.
Qed.

Lemma loadFromFile_fails_fast_witness :
  loadFromFile (matrix_text 2 2 [(0,0,1)] ++ nl :: lit "1, 1, 2" ++
                nl :: lit "(0, 1, 5)") =
  Some (Throw (lit "Invalid element format")).
Proof.
  apply (loadFromFile_fails_fast 2 2 [(0,0,1)] (lit "1, 1, 2")
           (nl :: lit "(0, 1, 5)")).
  - repeat constructor.
  - discriminate.
  - reflexivity.
  - right. eexists. reflexivity.
Defined.

(** A line break after the last entry line changes nothing: the text with a
    final line break loads to the same matrix. *)
Lemma loadFromFile_trailing_break r c es :
  loadFromFile (matrix_text r c es ++ [nl]) = Some (Ok (matrix_of r c es)).
Proof.
  rewrite (loadFromFile_lines _ r c
             (map (entry_of_text_with plain_decimal) es ++ [[]])).
  - rewrite load_lines_app, load_lines_entries, matrix_of_fold. reflexivity.
  - rewrite split_matrix_text_then. reflexivity.
Qed.


(** *** The second implementation's files *)

Lemma saveResult_eq this :
  DsaFile.saveResult this =
  text_with number_to_string (rows this) (cols this) (elements this) ++ [nl].
Proof.
  unfold DsaFile.saveResult. cbv zeta.
  assert (Hfold : forall es init,
    fold_left (fun content entry =>
      let '((row, col), value) := entry in
      content ++ entry_line row col value) es init =
    fold_left (fun result entry =>
      let '((row, col), value) := entry in
      result ++ (entry_text_with number_to_string row col value ++ [nl]))
      es init).
  { induction es as [|[[r c] v] t IH]; intros init; [reflexivity|].
    cbn [fold_left]. rewrite entry_line_eq. apply IH. }
  rewrite Hfold, fold_entry_lines, <- text_with_break.
  repeat (rewrite <- app_assoc; simpl). reflexivity.
Qed.


Lemma Number_of_number z : DsaFile.Number_of (number_to_string z) = Some z.
Proof.
  unfold DsaFile.Number_of.
  rewrite (trim_rendered _ number_to_string_chars number_to_string_nonempty).
  pose proof (to_Number_number_to_string z) as Hn.
  destruct (number_to_string_head z) as (ch & t & Heq & Hhead).
  rewrite Heq in *.
  assert (Hplus : Ascii.eqb ch "+" = false).
  { destruct Hhead as [Hd| ->]; [|reflexivity].
    apply (dec_digit_facts ch Hd). }
  rewrite Hplus. exact Hn.
Qed.



(** What [loadMatrix] makes of a file written by [saveResult]: the entries
    are read back exactly; the dimensions are what [parseInt] reads from the
    header lines. *)
Lemma loadMatrix_saveResult M r c :
  wf_elements (elements M) ->
  parseInt (number_to_string (rows M)) = Some r ->
  parseInt (number_to_string (cols M)) = Some c ->
  DsaFile.loadMatrix (DsaFile.saveResult M) =
  Some (Ok (mkSparseMatrix r c (elements M))).
Proof.
  intros [Hnd Hnz] Hr Hc. rewrite saveResult_eq.
  rewrite (loadMatrix_lines_with number_to_string number_to_string_chars
             _ (rows M) (cols M) r c
             (map (entry_of_text_with number_to_string) (elements M) ++ [[]]))
    by (first [assumption
              |rewrite split_text_with_then
                 by apply number_to_string_chars; reflexivity]).
  rewrite (load_entries_entries_with number_to_string number_to_string_chars
             number_to_string_nonempty Number_of_number).
  rewrite (replay_entries _ _ _ [] Hnd Hnz). reflexivity.
Qed.

Lemma loadMatrix_toString M r c :
  wf_elements (elements M) ->
  parseInt (number_to_string (rows M)) = Some r ->
  parseInt (number_to_string (cols M)) = Some c ->
  DsaFile.loadMatrix (toString M) =
  Some (Ok (mkSparseMatrix r c (elements M))).
Proof.
  intros [Hnd Hnz] Hr Hc. rewrite toString_eq.
  rewrite (loadMatrix_lines_with number_to_string number_to_string_chars
             _ (rows M) (cols M) r c
             (map (entry_of_text_with number_to_string) (elements M) ++ []))
    by (first [assumption
              |rewrite app_nil_r; apply split_text_with;
               apply number_to_string_chars]).
  rewrite (load_entries_entries_with number_to_string number_to_string_chars
             number_to_string_nonempty Number_of_number).
  rewrite (replay_entries _ _ _ [] Hnd Hnz). reflexivity.
Qed.

(** The two implementations read each other's files: for a matrix whose
    dimensions, coordinates and values are below 10^21 in magnitude, what
    [saveResult] writes, [loadFromFile] and [loadMatrix] load back to the
    same matrix, and [loadMatrix] loads what [toString] produces. *)
Theorem files_interchange (M : SparseMatrix) :
  wf_elements (elements M) -> plain_matrix M ->
  loadFromFile (DsaFile.saveResult M) = Some (Ok M) /\
  DsaFile.loadMatrix (DsaFile.saveResult M) = Some (Ok M) /\
  DsaFile.loadMatrix (toString M) = Some (Ok M).
Proof.
  intros Hwf Hplain. pose proof Hplain as (Hr & Hc & _).
  split; [|split].
  - rewrite saveResult_eq, (text_with_plain _ Hplain).
    rewrite loadFromFile_trailing_break, (matrix_of_elements M Hwf).
    reflexivity.
  - rewrite (loadMatrix_saveResult M (rows M) (cols M) Hwf)
      by (apply parseInt_number_to_string; assumption).
    destruct M; reflexivity.
  - rewrite (loadMatrix_toString M (rows M) (cols M) Hwf)
      by (apply parseInt_number_to_string; assumption).
    destruct M; reflexivity.
Qed.

Lemma files_interchange_witness :
  loadFromFile (DsaFile.saveResult edgeA) = Some (Ok edgeA) /\
  DsaFile.loadMatrix (DsaFile.saveResult edgeA) = Some (Ok edgeA) /\
  DsaFile.loadMatrix (toString edgeA) = Some (Ok edgeA).
Proof.
  apply (files_interchange edgeA).
  - apply wf_matrix_of.
  - apply plain_matrix_edgeA.
Defined.

(** ** Further properties of the accessors, the key and the text *)

(** [setElement] touches one coordinate: every other coordinate reads as
    before and keeps its stored entry, the dimensions are unchanged, and the
    invariants of the entry map are kept. *)
Theorem setElement_frame (this : SparseMatrix) (row col value : Z) :
  (forall row' col', (row, col) <> (row', col') ->
     getElement (setElement this row col value) row' col' =
       getElement this row' col' /\
     map_get (row', col') (elements (setElement this row col value)) =
       map_get (row', col') (elements this)) /\
  rows (setElement this row col value) = rows this /\
  cols (setElement this row col value) = cols this /\
  (wf_elements (elements this) ->
   wf_elements (elements (setElement this row col value))).
Proof.
  split; [|split; [apply rows_setElement|split; [apply cols_setElement|]]].
  - intros row' col' Hne. split.
    + apply getElement_setElement_other. exact Hne.
    + unfold setElement. destruct (negb (value =? 0)); cbn [elements].
      * apply map_get_set_other. exact Hne.
      * apply map_get_delete_other. exact Hne.
  - apply wf_setElement.
Qed.

(** The key that [setElement] builds from two integers is split back into
    the same integers by multiply and toString, and distinct coordinates
    never share a key. *)
Theorem key_template_round_trip (row col row' col' : Z) :
  split ","%char (key_string row col) =
    [number_to_string row; number_to_string col] /\
  split_key (key_string row col) = Some (row, col) /\
  (key_string row col = key_string row' col' -> row = row' /\ col = col').
Proof.
  split; [apply split_key_string|split; [apply split_key_key_string|]].
  intros Heq. apply key_string_inj in Heq. injection Heq as -> ->. auto.
Qed.

(** The text of [toString] has exactly one line per stored entry after the
    two header lines, in map order, and does not end with a line break. *)
Theorem toString_lines (this : SparseMatrix) :
  split nl (toString this) =
    row_line (rows this) :: col_line (cols this) ::
    map entry_of_text (elements this) /\
  List.length (split nl (toString this)) =
    (2 + List.length (elements this))%nat /\
  ends_nonws (toString this).
Proof.
  rewrite toString_eq, split_text_with by apply number_to_string_chars.
  split; [reflexivity|].
  split; [cbn [List.length]; rewrite length_map; reflexivity|].
  apply ends_nonws_text_with.
  - apply number_to_string_chars.
  - apply number_to_string_nonempty.
Qed.

(** ** The drivers *)

Lemma str_eqb_eq a b : str_eqb a b = true <-> a = b.
Proof.
  revert b. induction a as [|x a IH]; intros [|y b]; simpl;
    try (split; [discriminate|discriminate]); [tauto|].
  rewrite andb_true_iff, Ascii.eqb_eq, IH. split.
  - intros [-> ->]. reflexivity.
  - intros [= -> ->]. auto.
Qed.

Lemma multiply_fst_callback {W : Type} (A B : SparseMatrix)
    (cb : callback W) (w : W) :
  fst (multiply A B (Some cb) w) = multiply0 A B.
Proof.
  unfold multiply0. rewrite !multiply_eq.
  destruct (negb (cols A =? rows B)); [reflexivity|].
  destruct ((rows A =? 0) || (cols B =? 0)); reflexivity.
Qed.

(** Whatever [performOperation] writes to [results.txt] is the text of the
    result of the chosen operation, and loading that text gives the result
    matrix back when the numbers of the result are below 10^21 in
    magnitude.  An unrecognised operation writes nothing. *)
Theorem performOperation_written_reloads (matrix1 matrix2 : SparseMatrix)
    (operation content : jsstring) (console : list console_line) :
  performOperation matrix1 matrix2 operation = (Ok (Some content), console) ->
  exists R,
    content = toString R /\
    (plain_matrix R -> loadFromFile content = Some (Ok R)) /\
    ((operation = lit "add" /\ add matrix1 matrix2 = Ok R) \/
     (operation = lit "subtract" /\ subtract matrix1 matrix2 = Ok R) \/
     (operation = lit "multiply" /\ multiply0 matrix1 matrix2 = Ok R)).
Proof.
  unfold performOperation. cbv zeta.
  destruct (str_eqb operation (lit "add")) eqn:Ea.
  { apply str_eqb_eq in Ea.
    destruct (add matrix1 matrix2) as [R|m] eqn:HR; [|discriminate].
    intros [= <- <-]. exists R. split; [reflexivity|].
    split; [|left; auto].
    apply loadFromFile_toString. apply (add_inv _ _ _ HR). }
  destruct (str_eqb operation (lit "subtract")) eqn:Es.
  { apply str_eqb_eq in Es.
    destruct (subtract matrix1 matrix2) as [R|m] eqn:HR; [|discriminate].
    intros [= <- <-]. exists R. split; [reflexivity|].
    split; [|right; left; auto].
    apply loadFromFile_toString. apply (subtract_inv _ _ _ HR). }
  destruct (str_eqb operation (lit "multiply")) eqn:Em; [|discriminate].
  apply str_eqb_eq in Em.
  pose proof (multiply_fst_callback matrix1 matrix2
    (fun progress console => console ++ [LogProgress progress]) []) as Hfst.
  destruct (multiply matrix1 matrix2 _ []) as [[R|m] log] eqn:HM;
    [|discriminate].
  cbn [fst] in Hfst. intros [= <- <-]. exists R. split; [reflexivity|].
  split; [|right; right; auto].
  apply loadFromFile_toString. apply (wf_multiply matrix1 matrix2).
  symmetry. exact Hfst.
Qed.

Lemma performOperation_written_reloads_witness :
  exists R,
    toString (mkSparseMatrix 2 2 [((0,0),-2); ((0,1),-4); ((1,1),2)]) =
      toString R /\
    (plain_matrix R ->
     loadFromFile
       (toString (mkSparseMatrix 2 2 [((0,0),-2); ((0,1),-4); ((1,1),2)])) =
       Some (Ok R)) /\
    ((lit "subtract" = lit "add" /\ add exA exB = Ok R) \/
     (lit "subtract" = lit "subtract" /\ subtract exA exB = Ok R) \/
     (lit "subtract" = lit "multiply" /\ multiply0 exA exB = Ok R)).
Proof.
  apply (performOperation_written_reloads exA exB (lit "subtract") _
           [LogText (lit "Results have been saved to results.txt")]).
  reflexivity.
Defined.

(** On the files of two matrices of equal dimensions, [main()] of [main.js]
    writes two files, the sum first, and each file loads back to a matrix
    that reads [A + B], respectively [A - B], at every coordinate. *)
Theorem dsa_main_writes_sum_and_difference (A B : SparseMatrix) :
  wf_elements (elements A) -> wf_elements (elements B) ->
  rows A = rows B -> cols A = cols B ->
  exists S D,
    dsa_main (DsaFile.saveResult A) (DsaFile.saveResult B) =
      Some (Ok [DsaFile.saveResult S; DsaFile.saveResult D]) /\
    DsaFile.loadMatrix (DsaFile.saveResult S) = Some (Ok S) /\
    DsaFile.loadMatrix (DsaFile.saveResult D) = Some (Ok D) /\
    forall row col,
      getElement S row col = getElement A row col + getElement B row col /\
      getElement D row col = getElement A row col - getElement B row col.
Proof.
  intros HwA HwB Hr Hc.
  destruct (parseInt_number_to_string_stable (rows A)) as (r & Hpr & Hrb & _).
  destruct (parseInt_number_to_string_stable (cols A)) as (c & Hpc & Hcb & _).
  set (A' := mkSparseMatrix r c (elements A)).
  set (B' := mkSparseMatrix r c (elements B)).
  destruct (Dsa_add_inv A' B' (proj1 HwA) (proj1 HwB) eq_refl eq_refl)
    as (S & HS & HrS & HcS & HwS & HgS).
  destruct (Dsa_subtract_inv A' B' (proj1 HwA) (proj1 HwB) eq_refl eq_refl)
    as (D & HD & HrD & HcD & HwD & HgD).
  exists S, D.
  assert (Hload : forall M, wf_elements (elements M) ->
            rows M = r -> cols M = c ->
            DsaFile.loadMatrix (DsaFile.saveResult M) = Some (Ok M)).
  { intros M Hw HrM HcM.
    rewrite (loadMatrix_saveResult M r c Hw)
      by (first [rewrite HrM|rewrite HcM];
          apply parseInt_number_to_string; assumption).
    destruct M; cbn [rows cols elements] in *; subst; reflexivity. }
  split; [|split; [apply Hload; [apply HwS; exact HwA|exact HrS|exact HcS]
                  |split; [apply Hload;
                            [apply HwD; exact HwA|exact HrD|exact HcD]|]]].
  - unfold dsa_main.
    rewrite (loadMatrix_saveResult A r c HwA Hpr Hpc).
    rewrite (loadMatrix_saveResult B r c HwB)
      by (first [rewrite <- Hr|rewrite <- Hc]; assumption).
    fold A' B'. rewrite HS, HD. reflexivity.
  - intros row col. split; [apply HgS|apply HgD].
Qed.

Lemma dsa_main_writes_sum_and_difference_witness :
  exists S D,
    dsa_main (DsaFile.saveResult edgeA) (DsaFile.saveResult edgeB) =
      Some (Ok [DsaFile.saveResult S; DsaFile.saveResult D]) /\
    DsaFile.loadMatrix (DsaFile.saveResult S) = Some (Ok S) /\
    DsaFile.loadMatrix (DsaFile.saveResult D) = Some (Ok D) /\
    forall row col,
      getElement S row col =
        getElement edgeA row col + getElement edgeB row col /\
      getElement D row col =
        getElement edgeA row col - getElement edgeB row col.
Proof.
  apply (dsa_main_writes_sum_and_difference edgeA edgeB);
    try reflexivity; apply wf_matrix_of.
Defined.

(** ** Where the two implementations agree *)







